(** * A private star-registry blockchain: model of [src/blockchain.js]

    The class [Blockchain] keeps an array of blocks and a height counter,
    appends blocks linked by hash, validates the whole chain after every
    append, and gates star submissions by a time-windowed signed message.

    The development has three layers:
    - [Js]: the few JavaScript built-ins the class relies on
      ([String.prototype.split], [parseInt], promises);
    - [Block]: the block entity of [block.js], which the class imports;
    - [Blockchain]: the class itself, method by method. *)

From Stdlib Require Import ZArith QArith Lia Ascii String DecimalString
  DecimalPos.
From stdpp Require Import base list strings.

Local Open Scope Z_scope.

(** ** JavaScript built-ins *)

Module Js.

(** [s.split(sep)] for a one-character separator: the pieces between the
    separators, in order; a string without separator is its own single
    piece, and the empty string gives one empty piece. *)
Fixpoint split (sep : ascii) (s : string) : list string :=
  match s with
  | EmptyString => [EmptyString]
  | String c rest =>
      if Ascii.eqb c sep then EmptyString :: split sep rest
      else match split sep rest with
           | piece :: pieces => String c piece :: pieces
           | [] => [String c EmptyString]
           end
  end.

Definition code (c : ascii) : Z := Z.of_nat (nat_of_ascii c).

(** White space and line terminators skipped by [parseInt] (the code
    units below 256 among them). *)
Definition is_white_space (c : ascii) : bool :=
  let n := code c in
  (n =? 9) || (n =? 10) || (n =? 11) || (n =? 12) || (n =? 13)
  || (n =? 32) || (n =? 160).

Fixpoint trim_start (s : string) : string :=
  match s with
  | String c rest => if is_white_space c then trim_start rest else s
  | EmptyString => s
  end.

(** Value of a character as a digit in some radix up to 36. *)
Definition digit_value (c : ascii) : option Z :=
  let n := code c in
  if (48 <=? n) && (n <=? 57) then Some (n - 48)
  else if (97 <=? n) && (n <=? 122) then Some (n - 87)
  else if (65 <=? n) && (n <=? 90) then Some (n - 55)
  else None.

(** The longest prefix of [s] made of digits of [radix], read as a
    number; [acc] is [None] as long as no digit was read. *)
Fixpoint digits (radix : Z) (s : string) (acc : option Z) : option Z :=
  match s with
  | EmptyString => acc
  | String c rest =>
      match digit_value c with
      | Some d =>
          if d <? radix
          then digits radix rest (Some (radix * default 0 acc + d))
          else acc
      | None => acc
      end
  end.

(** [parseInt(s)] without a radix argument.  [None] is [NaN].  The sign
    is read first, then an optional [0x]/[0X] prefix switches to radix
    16.  The result is the exact integer: the callers only compare it
    with clock readings, and rounding to a double is monotone and leaves
    integers below 2^53 unchanged, so those comparisons are the same. *)
Definition parseInt (s : string) : option Z :=
  let s := trim_start s in
  let '(sign, s) :=
    match s with
    | String "-" rest => (-1, rest)
    | String "+" rest => (1, rest)
    | _ => (1, s)
    end in
  let '(radix, s) :=
    match s with
    | String "0" (String "x" rest) => (16, rest)
    | String "0" (String "X" rest) => (16, rest)
    | _ => (10, s)
    end in
  (fun mathInt => sign * mathInt) <$> digits radix s None.

(** [parseInt(pieces[1])]: reading past the end of an array gives
    [undefined], which [parseInt] first turns into the string
    ["undefined"]. *)
Definition parseInt_at (pieces : list string) (i : nat) : option Z :=
  parseInt (default "undefined"%string (pieces !! i)).

(** A number that may be [NaN]: the quotient of line 143. *)
Definition number : Type := option Q.

(** [x <= y] on numbers: false as soon as one side is [NaN]. *)
Definition le (x : number) (y : Q) : bool :=
  match x with
  | Some q => Qle_bool q y
  | None => false
  end.

(** [x > y] on numbers: false as soon as one side is [NaN]. *)
Definition gt (x : number) (y : Q) : Prop :=
  match x with
  | Some q => (y < q)%Q
  | None => False
  end.

(** How a promise ends.  [NeverSettles] is the promise whose executor
    neither called [resolve] nor [reject]: when the executor is an
    [async] function, an exception thrown in it rejects the executor's
    own promise and leaves the outer one pending for ever. *)
Inductive Promise (A E : Type) : Type :=
| Resolved (value : A)
| Rejected (reason : E)
| NeverSettles.
Arguments Resolved {A E} value.
Arguments Rejected {A E} reason.
Arguments NeverSettles {A E}.

End Js.

(** ** The block entity

    [block.js] is imported by the class but is a separate file; what the
    class needs of it is its fields, its constructor and its two methods. *)

Module Block.

(** The payload of a star submission, as [submitStar] builds it. *)
Record StarClaim (Star : Type) : Type := {
  owner : string;
  signature : string;
  message : string;
  star : Star
}.
Arguments owner {Star} _.
Arguments signature {Star} _.
Arguments message {Star} _.
Arguments star {Star} _.

(** What a block is built from: the class passes either the genesis
    sentinel [{data: 'Genesis Block'}] or a star claim. *)
Inductive Body (Star : Type) : Type :=
| Sentinel (data : string)
| Claim (claim : StarClaim Star).
Arguments Sentinel {Star} data.
Arguments Claim {Star} claim.

(** The fields the class reads and writes.  [None] is an unset field. *)
Record Block (Star : Type) : Type := {
  hash : option string;
  height : Z;
  body : Body Star;
  time : Z;
  previousBlockHash : option string
}.
Arguments hash {Star} _.
Arguments height {Star} _.
Arguments body {Star} _.
Arguments time {Star} _.
Arguments previousBlockHash {Star} _.

(** The two library functions hashing goes through: [SHA256(...).toString()]
    of [crypto-js] and [JSON.stringify] applied to a block. *)
Class Hashing (Star : Type) : Type := {
  SHA256 : string -> string;
  JSON_stringify : Block Star -> string
}.

Section Entity.
Context {Star : Type} `{Hashing Star}.

(** Field assignments [block.f = v]. *)
Definition set_hash (v : option string) (b : Block Star) : Block Star :=
  {| hash := v; height := height b; body := body b; time := time b;
     previousBlockHash := previousBlockHash b |}.

Definition set_height (v : Z) (b : Block Star) : Block Star :=
  {| hash := hash b; height := v; body := body b; time := time b;
     previousBlockHash := previousBlockHash b |}.

Definition set_time (v : Z) (b : Block Star) : Block Star :=
  {| hash := hash b; height := height b; body := body b; time := v;
     previousBlockHash := previousBlockHash b |}.

Definition set_previousBlockHash (v : option string) (b : Block Star)
  : Block Star :=
  {| hash := hash b; height := height b; body := body b; time := time b;
     previousBlockHash := v |}.

(** Modelled from the spec: the constructor of [block.js], [new(body)],
    which gives an unattached block whose body is set and whose height,
    time, hash and previousBlockHash are unset.  The class overwrites
    height and time before it reads them, so their initial value [0] is
    never observed. *)
Definition new (data : Body Star) : Block Star :=
  {| hash := None; height := 0; body := data; time := 0;
     previousBlockHash := None |}.

(** The hash of a block's fields other than [hash]. *)
Definition digest (b : Block Star) : string :=
  SHA256 (JSON_stringify (set_hash None b)).

(** Modelled from the spec: the method [validate()] of [block.js], which
    recomputes the hash over height, time, previousBlockHash and body and
    compares it to the stored [hash]. *)
Definition validate (b : Block Star) : bool :=
  bool_decide (hash b = Some (digest b)).

(** The failure of [getBData]. *)
Inductive Failure : Type := NotDecodable.

(** Modelled from the spec: the method [getBData()] of [block.js], which
    gives the decoded body and fails for the genesis sentinel body. *)
Definition getBData (b : Block Star) : Failure + StarClaim Star :=
  match body b with
  | Sentinel _ => inl NotDecodable
  | Claim claim => inr claim
  end.

End Entity.

End Block.

(** ** The class [Blockchain] *)

Module Blockchain.

Import Js.

(** The object state: [this.chain] and [this.height]. *)
Record Blockchain (Star : Type) : Type := {
  chain : list (Block.Block Star);
  height : Z
}.
Arguments chain {Star} _.
Arguments height {Star} _.

(** An entry of the array [validateChain] resolves with: the block whose
    self-check failed, or a text. *)
Inductive LogEntry (Star : Type) : Type :=
| LogBlock (block : Block.Block Star)
| LogText (text : string).
Arguments LogBlock {Star} block.
Arguments LogText {Star} text.

(** What the promises of the class are rejected with. *)
Inductive Reason (Star : Type) : Type :=
| TypeError
| Error (message : string) (error_log : list (LogEntry Star))
| Text (text : string).
Arguments TypeError {Star}.
Arguments Error {Star} message error_log.
Arguments Text {Star} text.

(** The signature check of [bitcoinjs-message], [verify(message, address,
    signature)], as a predicate. *)
Class Verifier : Type := {
  verify : string -> string -> string -> bool
}.

Section Methods.
Context {Star : Type} `{Block.Hashing Star} `{Verifier}.

Local Abbreviation Block := (Block.Block Star).
Local Abbreviation State := (Blockchain Star).
Local Abbreviation Outcome A := (option (Promise A (Reason Star))).

(** The text pushed by [validateChain] when the link check fails. *)
Definition link_text : string :=
  "previous hash does not equal hash of previous block".

(** The rejections of [submitStar] and [_addBlock] under the names the
    specification gives them. *)
Definition EXPIRED : Reason Star := Text "message timeout > 5min".
Definition BAD_SIGNATURE : Reason Star := Text "message not verified".
Definition VALIDATION_FAILURE (error_log : list (LogEntry Star))
  : Reason Star :=
  Error "invalid" error_log.

(** The fields as the constructor sets them, before [initializeChain]. *)
Definition empty : State := {| chain := []; height := -1 |}.

(** [getChainHeight()] *)
Definition getChainHeight (self : State) : Promise Z (Reason Star) :=
  Resolved (height self).

(** [checkHash(block, search_hash)], the comparison of lines 15 to 17;
    on a hash that is a text or null, [==] is equality. *)
Definition checkHash (block : Block) (search_hash : option string) : bool :=
  bool_decide (Block.hash block = search_hash).

(** [getBlockByHash(hash)]: the first block whose hash is [hash]; [None]
    is the [null] the promise resolves with when there is none. *)
Definition getBlockByHash (self : State) (hash : option string)
  : option Block :=
  head (filter (fun p => Block.hash p = hash) (chain self)).

(** [getBlockByHeight(height)] *)
Definition getBlockByHeight (self : State) (height : Z) : option Block :=
  head (filter (fun p => Block.height p = height) (chain self)).

(** [error_array.push(latest_block)] when the block's self-check fails. *)
Definition check_block (latest_block : Block)
  (error_array : list (LogEntry Star)) : list (LogEntry Star) :=
  if negb (Block.validate latest_block)
  then error_array ++ [LogBlock latest_block]
  else error_array.

(** The [while] loop of [validateChain] followed by the check of the
    block it stops at.  [fuel] bounds the number of iterations, and
    [None] says that the bound was reached.  A failed look-up makes
    [latest_block] null, the read of [latest_block.hash] throws inside the
    [async] executor, and the promise never settles. *)
Fixpoint validateChain_from (fuel : nat) (self : State)
  (latest_block : Block) (error_array : list (LogEntry Star))
  : Outcome (list (LogEntry Star)) :=
  if 0 <? Block.height latest_block then
    match fuel with
    | O => None
    | S fuel' =>
        let error_array := check_block latest_block error_array in
        let latest_block_snapshot := latest_block in
        match getBlockByHash self (Block.previousBlockHash latest_block) with
        | None => Some NeverSettles
        | Some latest_block =>
            let error_array :=
              if bool_decide
                   (Block.previousBlockHash latest_block_snapshot
                    <> Block.hash latest_block)
              then error_array ++ [LogText link_text]
              else error_array in
            validateChain_from fuel' self latest_block error_array
        end
    end
  else Some (Resolved (check_block latest_block error_array)).

(** [validateChain()] *)
Definition validateChain (fuel : nat) (self : State)
  : Outcome (list (LogEntry Star)) :=
  let error_array := [] in
  let block_length := length (chain self) in
  if (1 <=? block_length)%nat then
    match chain self !! (block_length - 1)%nat with
    | Some latest_block => validateChain_from fuel self latest_block error_array
    | None => Some NeverSettles
    end
  else Some (Resolved error_array).

(** Lines 73 to 87 of [_addBlock], which run without interruption: the
    candidate is linked, numbered, stamped, hashed and pushed, and the
    counter is advanced.  [now] is the clock in whole seconds, the value
    of [parseInt(new Date().getTime().toString().slice(0,-3))].  The hash
    is taken over [JSON.stringify(block)], the block as it is at that
    point, with the value its [hash] field has then.  The candidate is a
    new object, as at both call sites.  [inl] is the exception thrown when
    [self.chain[self.height]] is undefined. *)
Definition link_and_push (now : Z) (self : State) (block : Block)
  : Reason Star + Block * State :=
  let linked :=
    if 0 <=? height self then
      match chain self !! Z.to_nat (height self) with
      | Some previous_block =>
          Some (Block.set_previousBlockHash (Block.hash previous_block) block)
      | None => None
      end
    else Some block in
  match linked with
  | None => inl TypeError
  | Some block =>
      let new_height := height self + 1 in
      let block := Block.set_height new_height block in
      let curr_timestamp := now in
      let block := Block.set_time curr_timestamp block in
      let hash := Block.SHA256 (Block.JSON_stringify block) in
      let block := Block.set_hash (Some hash) block in
      inr (block, {| chain := chain self ++ [block]; height := new_height |})
  end.

(** [_addBlock(block)]: the state after the call and how the promise
    ends.  Everything thrown inside the [try] is caught and rejected. *)
Definition _addBlock (fuel : nat) (now : Z) (self : State) (block : Block)
  : State * Outcome Block :=
  match link_and_push now self block with
  | inl e => (self, Some (Rejected e))
  | inr (block, self) =>
      match validateChain fuel self with
      | None => (self, None)
      | Some (Resolved error_log) =>
          if (length error_log =? 0)%nat
          then (self, Some (Resolved block))
          else (self, Some (Rejected (VALIDATION_FAILURE error_log)))
      | Some (Rejected e) => (self, Some (Rejected e))
      | Some NeverSettles => (self, Some NeverSettles)
      end
  end.

(** The sentinel body of the genesis block. *)
Definition genesis_body : Block.Body Star := Block.Sentinel "Genesis Block".

(** [initializeChain()]: an [async] method, so a rejection of
    [_addBlock] rejects its promise. *)
Definition initializeChain (fuel : nat) (now : Z) (self : State)
  : State * Outcome unit :=
  if height self =? -1 then
    let block := Block.new genesis_body in
    match _addBlock fuel now self block with
    | (self, None) => (self, None)
    | (self, Some (Resolved _)) => (self, Some (Resolved ()))
    | (self, Some (Rejected e)) => (self, Some (Rejected e))
    | (self, Some NeverSettles) => (self, Some NeverSettles)
    end
  else (self, Some (Resolved ())).

(** [new Blockchain()]: the constructor starts [initializeChain] and does
    not wait for its promise. *)
Definition constructor (fuel : nat) (now : Z) : State :=
  fst (initializeChain fuel now empty).


(** Line 141: the second colon-delimited field of the message, read as an
    integer. *)
Definition message_time (message : string) : option Z :=
  parseInt_at (split ":" message) 1.

(** Line 143: the minutes elapsed since the time in the message; [NaN]
    when that time is [NaN]. *)
Definition time_diff_min (currentTime : Z) (message_time : option Z)
  : number :=
  (fun t => inject_Z (currentTime - t) / 60)%Q <$> message_time.

(** [submitStar(address, message, signature, star)]: the state after the
    call and how the promise ends.  [currentTime] is the clock read on
    line 142 and [now] the clock read by [_addBlock].  The executor is an
    [async] function without [try]: when [_addBlock] rejects, the [await]
    throws and neither [resolve] nor [reject] is called. *)
Definition submitStar (fuel : nat) (currentTime now : Z) (self : State)
  (address message signature : string) (star : Star)
  : State * Outcome Block :=
  let message_time := message_time message in
  let time_diff_min := time_diff_min currentTime message_time in
  if le time_diff_min 5 then
    let message_verified := verify message address signature in
    if message_verified then
      let data :=
        {| Block.owner := address; Block.signature := signature;
           Block.message := message; Block.star := star |} in
      let new_block := Block.new (Block.Claim data) in
      match _addBlock fuel now self new_block with
      | (self, None) => (self, None)
      | (self, Some (Resolved block)) => (self, Some (Resolved block))
      | (self, Some (Rejected _)) => (self, Some NeverSettles)
      | (self, Some NeverSettles) => (self, Some NeverSettles)
      end
    else (self, Some (Rejected BAD_SIGNATURE))
  else (self, Some (Rejected EXPIRED)).

(** The body of the [for] loop of [getStarsByWalletAddress], on the pair
    of [star_array] and [error_array]. *)
Definition scan_block (address : string)
  (arrays : list (Block.StarClaim Star) * list Block.Failure)
  (block : Block)
  : list (Block.StarClaim Star) * list Block.Failure :=
  let '(star_array, error_array) := arrays in
  match Block.getBData block with
  | inr block_data =>
      if bool_decide (Block.owner block_data = address)
      then (star_array ++ [block_data], error_array)
      else (star_array, error_array)
  | inl e => (star_array, error_array ++ [e])
  end.

(** The two arrays when the loop over [self.chain] ends. *)
Definition scan_chain (self : State) (address : string)
  : list (Block.StarClaim Star) * list Block.Failure :=
  foldl (scan_block address) ([], []) (chain self).

(** [getStarsByWalletAddress(address)] *)
Definition getStarsByWalletAddress (self : State) (address : string)
  : Promise (list (Block.StarClaim Star)) (Reason Star) :=
  Resolved (fst (scan_chain self address)).

(** The decoded bodies of a list of blocks, in the order of the list,
    and the failures of the blocks that do not decode. *)
Definition decoded_bodies (blocks : list Block)
  : list (Block.StarClaim Star) :=
  omap (fun block => match Block.getBData block with
                     | inr block_data => Some block_data
                     | inl _ => None
                     end) blocks.

Definition decode_failures (blocks : list Block) : list Block.Failure :=
  omap (fun block => match Block.getBData block with
                     | inr _ => None
                     | inl e => Some e
                     end) blocks.

(** Every block sits at the index that is its height. *)
Definition numbered (self : State) : Prop :=
  forall (i : nat) block,
    chain self !! i = Some block -> Block.height block = Z.of_nat i.

(** Every block after the first carries the hash of the block before
    it. *)
Definition linked (self : State) : Prop :=
  forall (i : nat) block,
    chain self !! S i = Some block ->
    exists previous_block,
      chain self !! i = Some previous_block /\
      Block.previousBlockHash block = Block.hash previous_block.

(** Every block passes its self-check. *)
Definition sealed (self : State) : Prop :=
  forall block, block ∈ chain self -> Block.validate block = true.

(** No two blocks of the chain have the same hash. *)
Definition distinct_hashes (self : State) : Prop :=
  NoDup (Block.hash <$> chain self).

(** The calls a client can make on a [Blockchain] object, with the clock
    readings and the iteration bound each one runs under. *)
Inductive Call : Type :=
| CallInitializeChain (fuel : nat) (now : Z)
| CallGetChainHeight
| CallAddBlock (fuel : nat) (now : Z) (data : Block.Body Star)
| CallRequestMessageOwnershipVerification (now : Z) (address : string)
| CallSubmitStar (fuel : nat) (currentTime now : Z)
    (address message signature : string) (star : Star)
| CallGetBlockByHash (hash : option string)
| CallGetBlockByHeight (height : Z)
| CallGetStarsByWalletAddress (address : string)
| CallValidateChain (fuel : nat).

(** The state a call leaves behind.  The look-ups, the scan and the
    validation only read [self.chain] and [self.height]. *)
Definition state_after (call : Call) (self : State) : State :=
  match call with
  | CallInitializeChain fuel now => fst (initializeChain fuel now self)
  | CallAddBlock fuel now data =>
      fst (_addBlock fuel now self (Block.new data))
  | CallSubmitStar fuel currentTime now address message signature star =>
      fst (submitStar fuel currentTime now self address message signature star)
  | CallGetChainHeight
  | CallRequestMessageOwnershipVerification _ _
  | CallGetBlockByHash _
  | CallGetBlockByHeight _
  | CallGetStarsByWalletAddress _
  | CallValidateChain _ => self
  end.

(** The state a sequence of calls leaves behind. *)
Definition states_after (calls : list Call) (self : State) : State :=
  foldl (fun self call => state_after call self) self calls.

(** The states a [Blockchain] object goes through: the one the
    constructor leaves, and the ones calls lead to. *)
Inductive reachable : State -> Prop :=
| reachable_constructor fuel now : reachable (constructor fuel now)
| reachable_call call self :
    reachable self -> reachable (state_after call self).

(** The invariant of the data model: the array is one longer than the
    counter, and the last block carries the counter as its height. *)
Definition consistent (self : State) : Prop :=
  Z.of_nat (length (chain self)) - 1 = height self /\
  Block.height <$> last (chain self) = Some (height self).

End Methods.

End Blockchain.

(** ** A small instance to run the model on

    Stars are plain texts, the digest is a short checksum, the block is
    written out field by field, and a signature is accepted when it is the
    address followed by the message. *)

Module Demo.

Import Js Blockchain.

Definition decimal (n : Z) : string := NilZero.string_of_int (Z.to_int n).

Definition checksum (s : string) : string :=
  decimal (fold_left (fun acc c => (acc * 31 + code c) mod 1000000007)
             (list_ascii_of_string s) 7).

Definition text_or_null (o : option string) : string :=
  match o with
  | Some s => s
  | None => "null"
  end.

Definition body_text (data : Block.Body string) : string :=
  match data with
  | Block.Sentinel data => data
  | Block.Claim claim =>
      (Block.owner claim ++ "," ++ Block.signature claim ++ ","
       ++ Block.message claim ++ "," ++ Block.star claim)%string
  end.

Definition stringify (b : Block.Block string) : string :=
  (text_or_null (Block.hash b) ++ ";" ++ decimal (Block.height b) ++ ";"
   ++ body_text (Block.body b) ++ ";" ++ decimal (Block.time b) ++ ";"
   ++ text_or_null (Block.previousBlockHash b))%string.

#[export] Instance hashing : Block.Hashing string :=
  {| Block.SHA256 := checksum; Block.JSON_stringify := stringify |}.

#[export] Instance verifier : Verifier :=
  {| verify message address signature :=
       bool_decide (signature = (address ++ message)%string) |}.

(** A ledger created at second 1000. *)
Definition fresh : Blockchain string := constructor 1 1000.

(** The ledger after one accepted submission at second 1100. *)
Definition one_star : Blockchain string :=
  fst (submitStar 2 1100 1100 fresh "1A2b3C" "1A2b3C:1000:starRegistry"
         "1A2b3C1A2b3C:1000:starRegistry" "Vega").

(** A stored block of height 1 is overwritten by [f]. *)
Definition tamper (f : Block.Block string -> Block.Block string)
  (self : Blockchain string) : Blockchain string :=
  {| chain := (fun b => if Block.height b =? 1 then f b else b) <$> chain self;
     height := height self |}.

(** [one_star] after its second block had its [previousBlockHash]
    overwritten with a text that is the hash of no block. *)
Definition dangling : Blockchain string :=
  tamper (Block.set_previousBlockHash (Some "0000")) one_star.

(** [one_star] after its second block had its [previousBlockHash]
    overwritten with its own hash. *)
Definition looped : Blockchain string :=
  tamper (fun b => Block.set_previousBlockHash (Block.hash b) b) one_star.

(** A ledger whose array was emptied while the counter stayed at 0. *)
Definition emptied : Blockchain string := {| chain := []; height := 0 |}.

(** [one_star] after the time of its second block was overwritten. *)
Definition restamped : Blockchain string :=
  tamper (Block.set_time 1) one_star.

End Demo.


(** * Properties *)

Section Properties.
Context {Star : Type} `{Block.Hashing Star} `{Blockchain.Verifier}.

Import Js Blockchain.

Local Abbreviation Block := (Block.Block Star).
Local Abbreviation State := (Blockchain Star).

(** ** The freshness check *)

(** With a time in the message, the check on the minutes is a check on
    the seconds. *)
Lemma le_time_diff_min (currentTime t : Z) :
  le (time_diff_min currentTime (Some t)) 5 = (currentTime - t <=? 300).
Proof.
  unfold le, time_diff_min; cbn.
  unfold Qle_bool; cbn.
  apply eq_true_iff_eq.
  rewrite !Z.leb_le. lia.
Qed.

Lemma gt_time_diff_min (currentTime t : Z) :
  gt (time_diff_min currentTime (Some t)) 5 <-> 300 < currentTime - t.
Proof.
  unfold gt, time_diff_min; cbn.
  unfold Qlt; cbn. lia.
Qed.

(** The check fails exactly when the minutes are [NaN] or above five. *)
Lemma le_time_diff_min_false (currentTime : Z) (message_time : option Z) :
  le (time_diff_min currentTime message_time) 5 = false <->
  message_time = None \/ gt (time_diff_min currentTime message_time) 5.
Proof.
  destruct message_time as [t|].
  - rewrite le_time_diff_min, gt_time_diff_min, Z.leb_gt.
    split; [auto | intros [? | ?]; [discriminate | assumption]].
  - cbn. split; auto.
Qed.

(** A message without colon has no second field, hence no time. *)
Lemma message_time_missing (message : string) :
  split ":" message !! 1%nat = None -> message_time message = None.
Proof.
  unfold message_time, parseInt_at. intros ->. reflexivity.
Qed.

(** [submitStar] is rejected as expired exactly when the check fails,
    and then leaves the state as it was. *)
Lemma submitStar_expired_iff fuel currentTime now (self : State)
  address message signature star :
  snd (submitStar fuel currentTime now self address message signature star)
  = Some (Rejected EXPIRED) <->
  le (time_diff_min currentTime (message_time message)) 5 = false.
Proof.
  unfold submitStar.
  destruct (le _ 5); [| by split].
  split; [| discriminate].
  destruct (verify _ _ _); [| discriminate].
  destruct (_addBlock _ _ _ _) as [self' [[b | e |] |]]; discriminate.
Qed.

Lemma submitStar_expired fuel currentTime now (self : State)
  address message signature star :
  le (time_diff_min currentTime (message_time message)) 5 = false ->
  submitStar fuel currentTime now self address message signature star
  = (self, Some (Rejected EXPIRED)).
Proof. unfold submitStar. intros ->. reflexivity. Qed.

(** C4, as amended.  [submitStar] is rejected as expired exactly when the
    time in the message cannot be read or the minutes elapsed since then,
    [(currentTime - message_time) / 60], exceed five; in particular a
    message whose time is 301 seconds in the past is rejected as expired
    whatever the signature check would answer, and the state is left as it
    was. *)
Theorem submitStar_expired_exactly fuel currentTime now (self : State)
  address message signature star :
  (snd (submitStar fuel currentTime now self address message signature star)
   = Some (Rejected EXPIRED) <->
   message_time message = None \/
   gt (time_diff_min currentTime (message_time message)) 5) /\
  (message_time message = Some (currentTime - 301) ->
   submitStar fuel currentTime now self address message signature star
   = (self, Some (Rejected EXPIRED))).
Proof.
  split.
  - rewrite submitStar_expired_iff. apply le_time_diff_min_false.
  - intros Ht. apply submitStar_expired.
    rewrite Ht, le_time_diff_min. apply Z.leb_gt. lia.
Qed.

(** C8.  A message without a second colon-delimited field has no readable
    time, and [submitStar] rejects it with the rejection of an expired
    message; no block is appended and the counter is not advanced. *)
Theorem submitStar_malformed fuel currentTime now (self : State)
  address message signature star :
  split ":" message !! 1%nat = None ->
  message_time message = None /\
  submitStar fuel currentTime now self address message signature star
  = (self, Some (Rejected EXPIRED)).
Proof.
  intros Hfield. apply message_time_missing in Hfield.
  split; [assumption |].
  apply submitStar_expired. rewrite Hfield. reflexivity.
Qed.

(** C10.  A message whose time is the current time or later passes the
    freshness check, the elapsed minutes being zero or negative, and
    [submitStar] does not reject it as expired. *)
Theorem submitStar_future_dated fuel currentTime now (self : State)
  address message signature star t :
  message_time message = Some t ->
  currentTime <= t ->
  ~ gt (time_diff_min currentTime (message_time message)) 0 /\
  le (time_diff_min currentTime (message_time message)) 5 = true /\
  snd (submitStar fuel currentTime now self address message signature star)
  <> Some (Rejected EXPIRED).
Proof.
  intros Ht Hle.
  assert (Hfresh : le (time_diff_min currentTime (message_time message)) 5
                   = true).
  { rewrite Ht, le_time_diff_min. apply Z.leb_le. lia. }
  split; [| split; [assumption |]].
  - rewrite Ht. unfold gt, time_diff_min, Qlt; cbn. lia.
  - rewrite submitStar_expired_iff, Hfresh. discriminate.
Qed.

(** ** Appending *)

(** What the uninterrupted part of [_addBlock] does when nothing is
    thrown. *)
Lemma link_and_push_inr now (self : State) (block : Block) new_block self' :
  link_and_push now self block = inr (new_block, self') ->
  chain self' = chain self ++ [new_block] /\
  height self' = height self + 1 /\
  Block.height new_block = height self + 1 /\
  Block.time new_block = now /\
  Block.body new_block = Block.body block /\
  Block.hash new_block
  = Some (Block.SHA256
            (Block.JSON_stringify
               (Block.set_hash (Block.hash block) new_block))) /\
  Block.previousBlockHash new_block
  = (if 0 <=? height self
     then chain self !! Z.to_nat (height self) ≫= Block.hash
     else Block.previousBlockHash block).
Proof.
  unfold link_and_push.
  destruct (0 <=? height self).
  - destruct (chain self !! Z.to_nat (height self)) as [previous_block|];
      [| discriminate].
    intros [= <- <-]. cbn. repeat split; reflexivity.
  - intros [= <- <-]. cbn. repeat split; reflexivity.
Qed.

(** The only exception of that part is the read of [hash] on an
    undefined array element, and then nothing was changed. *)
Lemma link_and_push_inl now (self : State) (block : Block) e :
  link_and_push now self block = inl e ->
  e = TypeError /\ 0 <= height self /\
  chain self !! Z.to_nat (height self) = None.
Proof.
  unfold link_and_push.
  destruct (0 <=? height self) eqn:Hh; [| discriminate].
  apply Z.leb_le in Hh.
  destruct (chain self !! Z.to_nat (height self)); [discriminate |].
  intros [= <-]. auto.
Qed.

(** Nothing is thrown when the counter points into the array or is
    negative. *)
Lemma link_and_push_total now (self : State) (block : Block) :
  height self < Z.of_nat (length (chain self)) ->
  exists new_block self', link_and_push now self block = inr (new_block, self').
Proof.
  intros Hlt. unfold link_and_push.
  destruct (0 <=? height self) eqn:Hh; [| eauto].
  apply Z.leb_le in Hh.
  destruct (lookup_lt_is_Some_2 (chain self) (Z.to_nat (height self)))
    as [previous_block ->]; [lia | eauto].
Qed.

(** The state [_addBlock] leaves does not depend on how validation
    ends. *)
Lemma _addBlock_state fuel now (self : State) (block : Block) :
  fst (_addBlock fuel now self block)
  = match link_and_push now self block with
    | inl _ => self
    | inr (_, self') => self'
    end.
Proof.
  unfold _addBlock.
  destruct (link_and_push now self block) as [e | [new_block self']];
    [reflexivity |].
  destruct (validateChain fuel self') as [[error_log | e |] |];
    try reflexivity.
  destruct (length error_log =? 0)%nat; reflexivity.
Qed.

(** A resolved [_addBlock] resolves with the block it pushed. *)
Lemma _addBlock_resolved fuel now (self : State) (block : Block) b :
  snd (_addBlock fuel now self block) = Some (Resolved b) ->
  exists self', link_and_push now self block = inr (b, self') /\
                validateChain fuel self' = Some (Resolved []).
Proof.
  unfold _addBlock.
  destruct (link_and_push now self block) as [e | [new_block self']];
    [discriminate |].
  destruct (validateChain fuel self') as [[error_log | e |] |] eqn:Hvalid;
    try discriminate.
  destruct error_log; cbn; [| discriminate].
  intros [= <-]. eauto.
Qed.

(** The states [submitStar] and [initializeChain] leave are the state
    [_addBlock] leaves, when they get that far. *)
Lemma submitStar_state fuel currentTime now (self : State)
  address message signature star :
  fst (submitStar fuel currentTime now self address message signature star)
  = if le (time_diff_min currentTime (message_time message)) 5
       && verify message address signature
    then fst (_addBlock fuel now self
                (Block.new (Block.Claim
                   {| Block.owner := address; Block.signature := signature;
                      Block.message := message; Block.star := star |})))
    else self.
Proof.
  unfold submitStar.
  destruct (le _ 5); [| reflexivity].
  destruct (verify _ _ _); [| reflexivity].
  cbn [andb].
  destruct (_addBlock _ _ _ _) as [self' [[b | e |] |]]; reflexivity.
Qed.

Lemma initializeChain_state fuel now (self : State) :
  fst (initializeChain fuel now self)
  = if height self =? -1
    then fst (_addBlock fuel now self (Block.new genesis_body))
    else self.
Proof.
  unfold initializeChain.
  destruct (height self =? -1); [| reflexivity].
  destruct (_addBlock _ _ _ _) as [self' [[b | e |] |]]; reflexivity.
Qed.

(** C1.  On a chain of height [h >= 0] whose array is one longer than
    the counter, [_addBlock] pushes a block of height [h + 1] whose
    [previousBlockHash] is the hash of the block that was last; the pushed
    block is the last of the array afterwards, the counter is [h + 1], and
    a resolved promise resolves with that block. *)
Theorem _addBlock_links fuel now (self : State) (block : Block) :
  0 <= height self ->
  Z.of_nat (length (chain self)) - 1 = height self ->
  exists tip new_block,
    last (chain self) = Some tip /\
    Block.height new_block = height self + 1 /\
    Block.previousBlockHash new_block = Block.hash tip /\
    chain (fst (_addBlock fuel now self block)) = chain self ++ [new_block] /\
    last (chain (fst (_addBlock fuel now self block))) = Some new_block /\
    height (fst (_addBlock fuel now self block)) = height self + 1 /\
    forall b, snd (_addBlock fuel now self block) = Some (Resolved b) ->
              b = new_block.
Proof.
  intros Hh Hlen.
  destruct (link_and_push_total now self block) as (new_block & self' & Hpush);
    [lia |].
  destruct (link_and_push_inr _ _ _ _ _ Hpush)
    as (Hchain & Hheight & Hnew & _ & _ & _ & Hprev).
  assert (Hlast : last (chain self) = chain self !! Z.to_nat (height self)).
  { rewrite last_lookup. f_equal. lia. }
  destruct (lookup_lt_is_Some_2 (chain self) (Z.to_nat (height self)))
    as [tip Htip]; [lia |].
  exists tip, new_block.
  rewrite _addBlock_state, Hpush, Hchain, last_snoc.
  repeat split; try assumption.
  - congruence.
  - rewrite Hprev. apply Z.leb_le in Hh. rewrite Hh, Htip. reflexivity.
  - intros b Hb. apply _addBlock_resolved in Hb as (self'' & Hb & _).
    congruence.
Qed.

(** C3.  When the candidate comes without hash, the block [_addBlock]
    appends stores the digest of its own fields other than [hash], and it
    passes its self-check; so does the block a resolved promise carries. *)
Theorem _addBlock_hash fuel now (self : State) (block new_block : Block) :
  Block.hash block = None ->
  chain (fst (_addBlock fuel now self block)) = chain self ++ [new_block] ->
  Block.hash new_block = Some (Block.digest new_block) /\
  Block.validate new_block = true /\
  forall b, snd (_addBlock fuel now self block) = Some (Resolved b) ->
            b = new_block.
Proof.
  intros Hunset. rewrite _addBlock_state.
  destruct (link_and_push now self block) as [e | [pushed self']] eqn:Hpush.
  - intros Hsame. apply (f_equal length) in Hsame.
    rewrite length_app in Hsame. cbn in Hsame. lia.
  - destruct (link_and_push_inr _ _ _ _ _ Hpush)
      as (Hchain & _ & _ & _ & _ & Hhash & _).
    rewrite Hchain. intros Heq. apply app_inj_tail in Heq as [_ ->].
    rewrite Hunset in Hhash.
    repeat split.
    + exact Hhash.
    + unfold Block.validate. apply bool_decide_eq_true. exact Hhash.
    + intros b Hb. apply _addBlock_resolved in Hb as (self'' & Hb & _).
      congruence.
Qed.

(** ** Validation *)

(** The block [getBlockByHash] finds is in the chain and has the hash
    that was asked for. *)
Lemma getBlockByHash_Some (self : State) hash (p : Block) :
  getBlockByHash self hash = Some p -> p ∈ chain self /\ Block.hash p = hash.
Proof.
  unfold getBlockByHash. intros Hhead.
  apply head_Some_elem_of, list_elem_of_filter in Hhead.
  tauto.
Qed.

(** It finds none only when no block of the chain has that hash. *)
Lemma getBlockByHash_None (self : State) hash :
  getBlockByHash self hash = None <->
  forall p, p ∈ chain self -> Block.hash p <> hash.
Proof.
  unfold getBlockByHash. rewrite head_None. split.
  - intros Hnil p Hp Hhash.
    assert (Hin : p ∈ filter (fun p => Block.hash p = hash) (chain self))
      by (apply list_elem_of_filter; auto).
    rewrite Hnil in Hin. by apply not_elem_of_nil in Hin.
  - intros Hnone.
    destruct (filter _ (chain self)) as [| p rest] eqn:Hfilter;
      [reflexivity |].
    assert (Hin : p ∈ filter (fun p => Block.hash p = hash) (chain self))
      by (rewrite Hfilter; left).
    apply list_elem_of_filter in Hin as [Hhash Hp].
    destruct (Hnone p Hp Hhash).
Qed.

(** [validateChain] has no [reject]: its promise resolves or never
    settles. *)
Lemma validateChain_from_not_rejected fuel (self : State) latest_block
  error_array e :
  validateChain_from fuel self latest_block error_array <> Some (Rejected e).
Proof.
  revert latest_block error_array.
  induction fuel as [| fuel IH]; intros latest_block error_array; cbn;
    destruct (0 <? Block.height latest_block); try discriminate.
  destruct (getBlockByHash self _); [apply IH | discriminate].
Qed.

Lemma validateChain_not_rejected fuel (self : State) e :
  validateChain fuel self <> Some (Rejected e).
Proof.
  unfold validateChain.
  destruct (1 <=? length (chain self))%nat; [| discriminate].
  destruct (chain self !! _);
    [apply validateChain_from_not_rejected | discriminate].
Qed.

(** The entries of a resolved log: what was there at the start, and the
    blocks pushed by the self-check.  The text of the link check is never
    pushed, since the block found by hash has the hash asked for. *)
Lemma validateChain_from_log fuel (self : State) latest_block error_array
  error_log entry :
  validateChain_from fuel self latest_block error_array
  = Some (Resolved error_log) ->
  entry ∈ error_log ->
  entry ∈ error_array \/
  exists block, entry = LogBlock block /\ Block.validate block = false.
Proof.
  assert (Hcheck : forall (b : Block) log,
             entry ∈ check_block b log ->
             entry ∈ log \/
             exists block, entry = LogBlock block /\
                           Block.validate block = false).
  { intros b log. unfold check_block.
    destruct (Block.validate b) eqn:Hvalid; cbn; [auto |].
    rewrite elem_of_app, list_elem_of_singleton.
    intros [? | ->]; eauto. }
  revert latest_block error_array.
  induction fuel as [| fuel IH]; intros latest_block error_array; cbn;
    destruct (0 <? Block.height latest_block); try discriminate;
    try (intros [= <-]; apply Hcheck).
  destruct (getBlockByHash self _) as [pred |] eqn:Hfound; [| discriminate].
  apply getBlockByHash_Some in Hfound as [_ Hhash].
  rewrite bool_decide_eq_false_2 by (rewrite Hhash; auto).
  intros Hrun Hentry.
  destruct (IH _ _ Hrun Hentry) as [Hin | ?]; [| auto].
  apply Hcheck in Hin. exact Hin.
Qed.

Lemma validateChain_log fuel (self : State) error_log entry :
  validateChain fuel self = Some (Resolved error_log) ->
  entry ∈ error_log ->
  exists block, entry = LogBlock block /\ Block.validate block = false.
Proof.
  unfold validateChain.
  destruct (1 <=? length (chain self))%nat.
  - destruct (chain self !! _) as [latest_block |]; [| discriminate].
    intros Hrun Hentry.
    destruct (validateChain_from_log _ _ _ _ _ _ Hrun Hentry) as [Hin | ?];
      [by apply not_elem_of_nil in Hin | assumption].
  - intros [= <-] Hentry. by apply not_elem_of_nil in Hentry.
Qed.

(** So a resolved log never holds the text of the link check. *)
Lemma validateChain_never_logs_link fuel (self : State) error_log :
  validateChain fuel self = Some (Resolved error_log) ->
  LogText link_text ∉ error_log.
Proof.
  intros Hrun Hentry.
  destruct (validateChain_log _ _ _ _ Hrun Hentry) as (block & Heq & _).
  discriminate.
Qed.

(** A block above height 0 whose [previousBlockHash] is the hash of no
    block stops the validation that reaches it: nothing is resolved. *)
Lemma validateChain_from_dangling fuel (self : State) latest_block
  error_array :
  0 < Block.height latest_block ->
  getBlockByHash self (Block.previousBlockHash latest_block) = None ->
  validateChain_from (S fuel) self latest_block error_array
  = Some NeverSettles.
Proof.
  intros Hh Hnone. cbn.
  apply Z.ltb_lt in Hh. rewrite Hh, Hnone. reflexivity.
Qed.

(** ** The chain only grows *)

Lemma _addBlock_extends fuel now (self : State) (block : Block) :
  exists more, chain (fst (_addBlock fuel now self block)) = chain self ++ more.
Proof.
  rewrite _addBlock_state.
  destruct (link_and_push now self block) as [e | [new_block self']] eqn:Hpush.
  - exists []. by rewrite app_nil_r.
  - apply link_and_push_inr in Hpush as [-> _]. eauto.
Qed.

Lemma state_after_extends call (self : State) :
  exists more, chain (state_after call self) = chain self ++ more.
Proof.
  assert (Hsame : exists more, chain self = chain self ++ more)
    by (exists []; by rewrite app_nil_r).
  destruct call; cbn [state_after]; try exact Hsame.
  - rewrite initializeChain_state.
    destruct (height self =? -1); [apply _addBlock_extends | exact Hsame].
  - apply _addBlock_extends.
  - rewrite submitStar_state.
    destruct (_ && _); [apply _addBlock_extends | exact Hsame].
Qed.

Lemma states_after_extends calls (self : State) :
  exists more, chain (states_after calls self) = chain self ++ more.
Proof.
  revert self. induction calls as [| call calls IH]; intros self.
  - exists []. by rewrite app_nil_r.
  - cbn. destruct (IH (state_after call self)) as [later Hlater].
    destruct (state_after_extends call self) as [more Hmore].
    exists (more ++ later).
    unfold states_after in Hlater. rewrite Hlater, Hmore.
    by rewrite app_assoc.
Qed.

(** C9.  When [_addBlock] is rejected because validation reported
    errors, nothing is undone: the block it created is the last of the
    array, the counter is advanced, and no later call removes the block. *)
Theorem _addBlock_no_rollback fuel now (self : State) (block : Block)
  error_log :
  snd (_addBlock fuel now self block)
  = Some (Rejected (VALIDATION_FAILURE error_log)) ->
  exists new_block,
    chain (fst (_addBlock fuel now self block)) = chain self ++ [new_block] /\
    height (fst (_addBlock fuel now self block)) = height self + 1 /\
    Block.height new_block = height self + 1 /\
    Block.body new_block = Block.body block /\
    validateChain fuel (fst (_addBlock fuel now self block))
    = Some (Resolved error_log) /\
    error_log <> [] /\
    forall calls, exists later,
      chain (states_after calls (fst (_addBlock fuel now self block)))
      = chain self ++ new_block :: later.
Proof.
  rewrite _addBlock_state. unfold _addBlock.
  destruct (link_and_push now self block) as [e | [new_block self']] eqn:Hpush.
  { apply link_and_push_inl in Hpush as [-> _]. discriminate. }
  destruct (link_and_push_inr _ _ _ _ _ Hpush)
    as (Hchain & Hheight & Hnew & _ & Hbody & _).
  destruct (validateChain fuel self') as [[log | e |] |] eqn:Hvalid;
    try discriminate.
  - destruct log as [| entry log]; cbn; [discriminate |].
    intros [= <-]. exists new_block.
    repeat split; try assumption; try discriminate.
    intros calls.
    destruct (states_after_extends calls self') as [later ->].
    exists later. rewrite Hchain, <- app_assoc. reflexivity.
  - destruct (validateChain_not_rejected _ _ _ Hvalid).
Qed.

(** ** The invariant of the data model *)

Lemma consistent_not_empty (self : State) :
  consistent self -> chain self <> [] /\ 0 <= height self.
Proof.
  intros [Hlen Hlast].
  destruct (chain self) as [| b l]; [discriminate |].
  split; [discriminate |]. cbn in Hlen. lia.
Qed.

Lemma _addBlock_consistent fuel now (self : State) (block : Block) :
  consistent self -> consistent (fst (_addBlock fuel now self block)).
Proof.
  intros Hself. rewrite _addBlock_state.
  destruct (link_and_push now self block) as [e | [new_block self']] eqn:Hpush;
    [assumption |].
  destruct (link_and_push_inr _ _ _ _ _ Hpush)
    as (Hchain & Hheight & Hnew & _).
  destruct Hself as [Hlen _].
  split.
  - rewrite Hchain, length_app. cbn. lia.
  - rewrite Hchain, last_snoc. cbn. congruence.
Qed.

Lemma state_after_consistent call (self : State) :
  consistent self -> consistent (state_after call self).
Proof.
  intros Hself.
  destruct call; cbn [state_after]; try assumption.
  - rewrite initializeChain_state.
    destruct (height self =? -1); [by apply _addBlock_consistent | assumption].
  - by apply _addBlock_consistent.
  - rewrite submitStar_state.
    destruct (_ && _); [by apply _addBlock_consistent | assumption].
Qed.

(** The genesis block passes its self-check, so the first validation
    resolves with an empty log on any number of iterations. *)
Lemma initializeChain_empty fuel now :
  exists genesis : Block,
    initializeChain fuel now empty
    = ({| chain := [genesis]; height := 0 |}, Some (Resolved ())) /\
    Block.height genesis = 0 /\
    Block.body genesis = genesis_body /\
    Block.previousBlockHash genesis = None /\
    Block.validate genesis = true.
Proof.
  pose (stamped := Block.set_time now (Block.new genesis_body) : Block).
  pose (genesis := Block.set_hash
                     (Some (Block.SHA256 (Block.JSON_stringify stamped)))
                     stamped).
  assert (Hvalid : Block.validate genesis = true)
    by (by apply bool_decide_eq_true).
  assert (Hheight : Block.height genesis = 0) by reflexivity.
  assert (Hpush : link_and_push now empty (Block.new genesis_body)
                  = inr (genesis, {| chain := [genesis]; height := 0 |}))
    by reflexivity.
  exists genesis. split; [| repeat split; assumption].
  clearbody genesis.
  assert (Hrun : validateChain fuel {| chain := [genesis]; height := 0 |}
                 = Some (Resolved [])).
  { change (validateChain_from fuel {| chain := [genesis]; height := 0 |}
              genesis [] = Some (Resolved [])).
    destruct fuel; unfold validateChain_from, check_block;
      rewrite Hheight, Hvalid; reflexivity. }
  unfold initializeChain, _addBlock.
  change (height empty =? -1) with true. cbv iota.
  rewrite Hpush, Hrun. reflexivity.
Qed.

Lemma constructor_consistent fuel now :
  consistent (constructor fuel now (Star := Star)).
Proof.
  unfold constructor.
  destruct (initializeChain_empty fuel now) as (genesis & -> & Hh & _).
  split; [reflexivity | cbn; congruence].
Qed.

(** C6.  Initialization completes, and then the chain is not empty and
    the array is one longer than the counter, which is the height of the
    last block; every call keeps this so. *)
Theorem consistent_invariant :
  (forall fuel now,
     snd (initializeChain fuel now empty) = Some (Resolved ()) /\
     chain (constructor fuel now) <> [] /\
     consistent (constructor fuel now (Star := Star))) /\
  (forall call (self : State),
     consistent self ->
     chain (state_after call self) <> [] /\
     consistent (state_after call self)).
Proof.
  split.
  - intros fuel now.
    assert (Hcons := constructor_consistent fuel now).
    split; [| split; [by apply consistent_not_empty | assumption]].
    by destruct (initializeChain_empty fuel now) as (genesis & -> & _).
  - intros call self Hself.
    apply (state_after_consistent call) in Hself.
    split; [by apply consistent_not_empty | assumption].
Qed.

(** In every state an object goes through, the blocks are numbered by
    their index, so the order of the array is the order of the heights. *)
Lemma _addBlock_numbered fuel now (self : State) (block : Block) :
  consistent self -> numbered self ->
  numbered (fst (_addBlock fuel now self block)).
Proof.
  intros [Hlen _] Hnum. rewrite _addBlock_state.
  destruct (link_and_push now self block) as [e | [new_block self']] eqn:Hpush;
    [assumption |].
  destruct (link_and_push_inr _ _ _ _ _ Hpush)
    as (Hchain & _ & Hnew & _).
  intros i b. rewrite Hchain, lookup_app_Some.
  intros [Hold | [Hge Hlast]]; [by apply Hnum |].
  apply list_lookup_singleton_Some in Hlast as [Hi <-]. lia.
Qed.

Lemma reachable_numbered (self : State) :
  reachable self -> consistent self /\ numbered self.
Proof.
  induction 1 as [fuel now | call self Hreach [Hcons Hnum]].
  - split; [apply constructor_consistent |].
    unfold constructor.
    destruct (initializeChain_empty fuel now) as (genesis & -> & Hh & _).
    intros [| i] b; cbn; [intros [= <-]; exact Hh | discriminate].
  - split; [by apply state_after_consistent |].
    destruct call; cbn [state_after]; try assumption.
    + rewrite initializeChain_state.
      destruct (height self =? -1); [by apply _addBlock_numbered | assumption].
    + by apply _addBlock_numbered.
    + rewrite submitStar_state.
      destruct (_ && _); [by apply _addBlock_numbered | assumption].
Qed.

(** ** The stars of an owner *)

(** The loop, started on any two arrays, adds to the first the decoded
    bodies of the owner and to the second the failures, in order. *)
Lemma scan_block_foldl address (blocks : list Block) star_array error_array :
  foldl (scan_block address) (star_array, error_array) blocks
  = (star_array
     ++ filter (fun d => Block.owner d = address) (decoded_bodies blocks),
     error_array ++ decode_failures blocks).
Proof.
  revert star_array error_array.
  induction blocks as [| block blocks IH]; intros star_array error_array.
  - cbn. by rewrite !app_nil_r.
  - cbn [foldl]. unfold scan_block at 2.
    unfold decoded_bodies, decode_failures. cbn [omap list_omap].
    destruct (Block.getBData block) as [e | block_data].
    + rewrite IH. by rewrite <- app_assoc.
    + destruct (bool_decide_reflect (Block.owner block_data = address))
        as [Howner | Howner]; rewrite IH.
      * rewrite filter_cons_True by done. by rewrite <- app_assoc.
      * by rewrite filter_cons_False by done.
Qed.

(** C7.  [getStarsByWalletAddress] goes through the whole chain in the
    order of the array, which in every state an object goes through is
    the order of increasing height; a block that does not decode only
    adds to the array of errors, which is not returned; the promise is
    always resolved, with the decoded bodies whose owner is the address,
    in chain order. *)
Theorem getStarsByWalletAddress_exact (self : State) address :
  scan_chain self address
  = (filter (fun d => Block.owner d = address) (decoded_bodies (chain self)),
     decode_failures (chain self)) /\
  getStarsByWalletAddress self address
  = Resolved (filter (fun d => Block.owner d = address)
                (decoded_bodies (chain self))) /\
  (reachable self -> numbered self).
Proof.
  assert (Hscan := scan_block_foldl address (chain self) [] []).
  repeat split.
  - exact Hscan.
  - unfold getStarsByWalletAddress, scan_chain. by rewrite Hscan.
  - intros Hreach. by apply reachable_numbered.
Qed.

(** ** Submitting a star *)

(** The block made from a claim decodes to that claim, wherever
    [_addBlock] pushes it. *)
Lemma link_and_push_getBData now (self : State) (block : Block) new_block
  self' :
  link_and_push now self block = inr (new_block, self') ->
  Block.getBData new_block = Block.getBData block.
Proof.
  intros Hpush.
  destruct (link_and_push_inr _ _ _ _ _ Hpush) as (_ & _ & _ & _ & Hbody & _).
  unfold Block.getBData. by rewrite Hbody.
Qed.

(** C5.  With a message that passes the freshness check: when the
    signature check answers false, [submitStar] is rejected as not
    verified and the state is left as it was; when it answers true, the
    body [{owner, signature, message, star}] is handed to [_addBlock],
    whose state and resolved block are those of [submitStar], and the
    block appended decodes to that body, whose owner is the address. *)
Theorem submitStar_fresh fuel currentTime now (self : State)
  address message signature star :
  le (time_diff_min currentTime (message_time message)) 5 = true ->
  (verify message address signature = false ->
   submitStar fuel currentTime now self address message signature star
   = (self, Some (Rejected BAD_SIGNATURE))) /\
  (verify message address signature = true ->
   let data :=
     {| Block.owner := address; Block.signature := signature;
        Block.message := message; Block.star := star |} in
   let appended := _addBlock fuel now self (Block.new (Block.Claim data)) in
   fst (submitStar fuel currentTime now self address message signature star)
   = fst appended /\
   (forall block,
      snd (submitStar fuel currentTime now self address message signature
             star) = Some (Resolved block) <->
      snd appended = Some (Resolved block)) /\
   (forall new_block,
      chain (fst (submitStar fuel currentTime now self address message
                    signature star)) = chain self ++ [new_block] ->
      Block.getBData new_block = inr data /\
      Block.owner data = address)).
Proof.
  intros Hfresh. split; intros Hverify.
  - unfold submitStar. by rewrite Hfresh, Hverify.
  - intros data appended.
    assert (Hstate :
      fst (submitStar fuel currentTime now self address message signature star)
      = fst appended).
    { rewrite submitStar_state, Hfresh, Hverify. reflexivity. }
    split; [exact Hstate | split].
    + intros block. unfold submitStar. rewrite Hfresh, Hverify.
      fold data. fold appended.
      destruct appended as [self' [[b | e |] |]]; cbn; split; congruence.
    + intros new_block. rewrite Hstate. unfold appended.
      rewrite _addBlock_state.
      destruct (link_and_push now self _) as [e | [pushed self']] eqn:Hpush.
      * intros Hsame. apply (f_equal length) in Hsame.
        rewrite length_app in Hsame. cbn in Hsame. lia.
      * destruct (link_and_push_inr _ _ _ _ _ Hpush) as (Hchain & _).
        rewrite Hchain. intros Heq. apply app_inj_tail in Heq as [_ ->].
        split; [| reflexivity].
        by rewrite (link_and_push_getBData _ _ _ _ _ Hpush).
Qed.

(** ** Validation succeeds on the chains the methods build *)

(** When some element at index [k] satisfies [P], the first element that
    does sits at an index no larger. *)
Lemma head_filter_before {A} (P : A -> Prop) `{!forall x, Decision (P x)}
  (l : list A) (k : nat) (q : A) :
  l !! k = Some q -> P q ->
  exists (j : nat) (p : A),
    (j <= k)%nat /\ l !! j = Some p /\ head (filter P l) = Some p.
Proof.
  revert k. induction l as [| x l IH]; intros k Hk HP; [discriminate |].
  destruct (decide (P x)) as [Hx | Hx].
  - exists 0%nat, x. rewrite filter_cons_True by done.
    split; [lia | split; reflexivity].
  - rewrite filter_cons_False by done.
    destruct k as [| k]; cbn in Hk; [congruence |].
    destruct (IH k Hk HP) as (j & p & Hj & Hp & Hhead).
    exists (S j), p. split; [lia | split; assumption].
Qed.

(** On a numbered, linked and sealed chain the loop started at index [i]
    ends within [i] iterations and adds nothing to the log. *)
Lemma validateChain_from_sound (self : State) :
  numbered self -> linked self -> sealed self ->
  forall fuel (i : nat) latest_block error_array,
    chain self !! i = Some latest_block ->
    (i <= fuel)%nat ->
    validateChain_from fuel self latest_block error_array
    = Some (Resolved error_array).
Proof.
  intros Hnum Hlink Hseal.
  assert (Hcheck : forall (i : nat) (b : Block) log,
             chain self !! i = Some b -> check_block b log = log).
  { intros i b log Hb. unfold check_block.
    rewrite (Hseal b) by (eapply list_elem_of_lookup_2; eassumption).
    reflexivity. }
  induction fuel as [| fuel IH]; intros i latest_block error_array Hi Hfuel.
  - assert (i = 0)%nat as -> by lia.
    cbn. rewrite (Hnum _ _ Hi). cbn. by rewrite (Hcheck _ _ _ Hi).
  - cbn. destruct (0 <? Block.height latest_block) eqn:Hh;
      [| by rewrite (Hcheck _ _ _ Hi)].
    apply Z.ltb_lt in Hh. rewrite (Hnum _ _ Hi) in Hh.
    destruct i as [| i]; [lia |].
    destruct (Hlink _ _ Hi) as (previous_block & Hprev & Hhash).
    destruct (head_filter_before
                (fun p => Block.hash p
                          = Block.previousBlockHash latest_block)
                (chain self) i previous_block Hprev (eq_sym Hhash))
      as (j & found & Hj & Hfound & Hhead).
    unfold getBlockByHash. rewrite Hhead.
    rewrite bool_decide_eq_false_2.
    + rewrite (Hcheck _ _ _ Hi). apply (IH j); [assumption | lia].
    + apply head_Some_elem_of, list_elem_of_filter in Hhead as [Heq _].
      rewrite Heq. auto.
Qed.

Lemma validateChain_sound fuel (self : State) :
  numbered self -> linked self -> sealed self ->
  (length (chain self) <= S fuel)%nat ->
  validateChain fuel self = Some (Resolved []).
Proof.
  intros Hnum Hlink Hseal Hfuel. unfold validateChain.
  destruct (1 <=? length (chain self))%nat eqn:Hlen; [| reflexivity].
  apply Nat.leb_le in Hlen.
  destruct (lookup_lt_is_Some_2 (chain self) (length (chain self) - 1))
    as [latest_block Hlatest]; [lia |].
  rewrite Hlatest.
  eapply validateChain_from_sound; eauto. lia.
Qed.

(** Pushing a candidate that comes without hash keeps the chain linked
    and sealed. *)
Lemma _addBlock_linked_sealed fuel now (self : State) (block : Block) :
  Block.hash block = None ->
  consistent self -> linked self -> sealed self ->
  linked (fst (_addBlock fuel now self block)) /\
  sealed (fst (_addBlock fuel now self block)).
Proof.
  intros Hunset [Hlen _] Hlink Hseal. rewrite _addBlock_state.
  destruct (link_and_push now self block) as [e | [new_block self']] eqn:Hpush;
    [by split |].
  destruct (link_and_push_inr _ _ _ _ _ Hpush)
    as (Hchain & _ & _ & _ & _ & Hhash & Hprev).
  split.
  - intros i b. rewrite Hchain, lookup_app_Some.
    intros [Hold | [Hge Hlast]].
    + destruct (Hlink _ _ Hold) as (p & Hp & Hp').
      exists p. split; [| assumption]. by apply lookup_app_l_Some.
    + apply list_lookup_singleton_Some in Hlast as [Hi <-].
      assert (Hidx : Z.to_nat (height self) = i) by lia.
      assert (Hpos : (0 <=? height self) = true) by (apply Z.leb_le; lia).
      rewrite Hpos, Hidx in Hprev.
      destruct (lookup_lt_is_Some_2 (chain self) i) as [p Hp]; [lia |].
      exists p. split; [by apply lookup_app_l_Some |].
      by rewrite Hprev, Hp.
  - intros b. rewrite Hchain, elem_of_app, list_elem_of_singleton.
    intros [Hold | ->]; [by apply Hseal |].
    unfold Block.validate. apply bool_decide_eq_true.
    by rewrite Hunset in Hhash.
Qed.

Lemma reachable_linked_sealed (self : State) :
  reachable self -> linked self /\ sealed self.
Proof.
  induction 1 as [fuel now | call self Hreach [Hlink Hseal]].
  - unfold constructor.
    destruct (initializeChain_empty fuel now)
      as (genesis & -> & _ & _ & _ & Hvalid).
    split.
    + intros i b Hb. destruct i; discriminate.
    + intros b Hb. cbn in Hb. by apply list_elem_of_singleton in Hb as ->.
  - assert (Hcons : consistent self) by (by apply reachable_numbered).
    destruct call; cbn [state_after]; try (by split).
    + rewrite initializeChain_state.
      destruct (height self =? -1);
        [by apply _addBlock_linked_sealed | by split].
    + by apply _addBlock_linked_sealed.
    + rewrite submitStar_state.
      destruct (_ && _); [by apply _addBlock_linked_sealed | by split].
Qed.

(** On the states an object goes through, [_addBlock] of a new block is
    resolved as soon as the bound is the length of the chain. *)
Lemma reachable_addBlock_resolved fuel now (self : State) data :
  reachable self ->
  (length (chain self) <= fuel)%nat ->
  exists new_block,
    snd (_addBlock fuel now self (Block.new data)) = Some (Resolved new_block).
Proof.
  intros Hreach Hfuel.
  pose proof (reachable_call (CallAddBlock fuel now data) _ Hreach) as Hnext.
  cbn [state_after] in Hnext.
  destruct (reachable_numbered _ Hnext) as [_ Hnum].
  destruct (reachable_linked_sealed _ Hnext) as [Hlink Hseal].
  destruct (reachable_numbered _ Hreach) as [[Hlen _] _].
  rewrite _addBlock_state in Hnum, Hlink, Hseal.
  unfold _addBlock.
  destruct (link_and_push_total now self (Block.new data))
    as (new_block & self' & Hpush); [lia |].
  rewrite Hpush in *.
  destruct (link_and_push_inr _ _ _ _ _ Hpush) as (Hchain & _).
  rewrite (validateChain_sound fuel self') by
    (try assumption; rewrite Hchain, length_app; cbn; lia).
  cbn. eauto.
Qed.

End Properties.

(** * Further properties of the methods *)

Section Operations.
Context {Star : Type} `{Block.Hashing Star} `{Blockchain.Verifier}.

Import Js Blockchain.

Local Abbreviation Block := (Block.Block Star).
Local Abbreviation State := (Blockchain Star).

(** ** Look-ups *)

(** The head of a filtered list is the first element that passes. *)
Lemma head_filter_first {A} (P : A -> Prop) `{!forall x, Decision (P x)}
  (l : list A) (p : A) :
  head (filter P l) = Some p ->
  exists i : nat,
    l !! i = Some p /\ P p /\
    forall (j : nat) q, (j < i)%nat -> l !! j = Some q -> ~ P q.
Proof.
  induction l as [| x l IH].
  - discriminate.
  - destruct (decide (P x)) as [Hx | Hx].
    + rewrite filter_cons_True by done. intros [= <-].
      exists 0%nat. split; [reflexivity | split; [assumption |]].
      intros j q Hj. lia.
    + rewrite filter_cons_False by done. intros Hhead.
      destruct (IH Hhead) as (i & Hi & Hp & Hbefore).
      exists (S i). split; [assumption | split; [assumption |]].
      intros [| j] q Hj; cbn.
      * by intros [= <-].
      * apply Hbefore. lia.
Qed.

Lemma head_filter_none {A} (P : A -> Prop) `{!forall x, Decision (P x)}
  (l : list A) :
  head (filter P l) = None <-> forall q, q ∈ l -> ~ P q.
Proof.
  rewrite head_None. split.
  - intros Hnil q Hq HP.
    assert (Hin : q ∈ filter P l) by (apply list_elem_of_filter; auto).
    rewrite Hnil in Hin. by apply not_elem_of_nil in Hin.
  - intros Hnone. destruct (filter P l) as [| p rest] eqn:Hfilter;
      [reflexivity |].
    assert (Hin : p ∈ filter P l) by (rewrite Hfilter; left).
    apply list_elem_of_filter in Hin as [HP Hp].
    destruct (Hnone p Hp HP).
Qed.

(** X1.  [getBlockByHash] resolves with the first block of the array
    whose hash is the one asked for, a block [checkHash] accepts; it
    resolves with null exactly when no block of the chain has that hash. *)
Theorem getBlockByHash_first (self : State) (hash : option string) :
  (forall p,
     getBlockByHash self hash = Some p <->
     exists i : nat,
       chain self !! i = Some p /\ checkHash p hash = true /\
       forall (j : nat) q,
         (j < i)%nat -> chain self !! j = Some q -> checkHash q hash = false) /\
  (getBlockByHash self hash = None <->
   forall q, q ∈ chain self -> Block.hash q <> hash).
Proof.
  unfold getBlockByHash, checkHash. split.
  - intros p. split.
    + intros Hhead. apply head_filter_first in Hhead as (i & Hi & Hp & Hbefore).
      exists i. split; [assumption | split].
      * by apply bool_decide_eq_true.
      * intros j q Hj Hq. apply bool_decide_eq_false. eauto.
    + intros (i & Hi & Hp & Hbefore).
      apply bool_decide_eq_true in Hp.
      destruct (head (filter _ (chain self))) as [found |] eqn:Hhead.
      * apply head_filter_first in Hhead as (k & Hk & Hfound & Hfirst).
        destruct (Nat.lt_trichotomy k i) as [Hlt | [-> | Hlt]].
        -- specialize (Hbefore k found Hlt Hk).
           by apply bool_decide_eq_false in Hbefore.
        -- congruence.
        -- destruct (Hfirst i p Hlt Hi Hp).
      * pose proof (proj1 (head_filter_none
                             (fun p : Block => Block.hash p = hash) _) Hhead)
          as Hnone.
        destruct (Hnone p); [by eapply list_elem_of_lookup_2 | assumption].
  - apply (head_filter_none (fun p : Block => Block.hash p = hash)).
Qed.

Lemma getBlockByHeight_index (self : State) (height : Z) :
  numbered self ->
  getBlockByHeight self height
  = if 0 <=? height then chain self !! Z.to_nat height else None.
Proof.
  intros Hnum. unfold getBlockByHeight.
  destruct (head (filter _ (chain self))) as [found |] eqn:Hhead.
  - apply head_filter_first in Hhead as (i & Hi & Hfound & _).
    rewrite (Hnum _ _ Hi) in Hfound. subst height.
    rewrite (proj2 (Z.leb_le _ _)) by lia.
    by rewrite Nat2Z.id.
  - pose proof (proj1 (head_filter_none
                         (fun p : Block => Block.height p = height) _) Hhead)
      as Hnone.
    destruct (0 <=? height) eqn:Hsign; [| reflexivity].
    apply Z.leb_le in Hsign.
    destruct (chain self !! Z.to_nat height) as [q |] eqn:Hq; [| reflexivity].
    destruct (Hnone q); [by eapply list_elem_of_lookup_2 |].
    rewrite (Hnum _ _ Hq). lia.
Qed.

(** X2.  On a chain whose blocks sit at the index that is their height,
    [getBlockByHeight] resolves with the block at that index, and with
    null for a negative height or one past the end. *)
Theorem getBlockByHeight_numbered (self : State) (height : Z) :
  numbered self ->
  (0 <= height < Z.of_nat (length (chain self)) ->
   exists block,
     getBlockByHeight self height = Some block /\
     chain self !! Z.to_nat height = Some block /\
     Block.height block = height) /\
  (height < 0 \/ Z.of_nat (length (chain self)) <= height ->
   getBlockByHeight self height = None).
Proof.
  intros Hnum. rewrite getBlockByHeight_index by assumption. split.
  - intros Hrange. rewrite (proj2 (Z.leb_le _ _)) by lia.
    destruct (lookup_lt_is_Some_2 (chain self) (Z.to_nat height))
      as [block Hblock]; [lia |].
    exists block. repeat split; try assumption.
    rewrite (Hnum _ _ Hblock). lia.
  - intros [Hneg | Hpast].
    + by rewrite (proj2 (Z.leb_gt _ _)) by lia.
    + destruct (0 <=? height); [| reflexivity].
      apply lookup_ge_None. lia.
Qed.

(** X3.  In every state an object goes through, [getChainHeight]
    resolves with the number of blocks minus one, which is never negative;
    the block of that height is the last of the chain, and there is none
    of the next height. *)
Theorem getChainHeight_tip (self : State) :
  reachable self ->
  exists tip,
    getChainHeight self = Resolved (Z.of_nat (length (chain self)) - 1) /\
    0 <= height self /\
    last (chain self) = Some tip /\
    getBlockByHeight self (height self) = Some tip /\
    getBlockByHeight self (height self + 1) = None.
Proof.
  intros Hreach.
  destruct (reachable_numbered _ Hreach) as [Hcons Hnum].
  destruct (consistent_not_empty _ Hcons) as [_ Hpos].
  destruct Hcons as [Hlen Hlast].
  destruct (last (chain self)) as [tip |] eqn:Htip; [| discriminate].
  exists tip. unfold getChainHeight. rewrite Hlen.
  rewrite !getBlockByHeight_index by assumption.
  rewrite !(proj2 (Z.leb_le _ _)) by lia.
  repeat split; try assumption.
  - rewrite <- Htip, last_lookup. f_equal. lia.
  - apply lookup_ge_None. lia.
Qed.

(** ** The shape of the chain *)

(** A call leaves the state as it was or pushes one block and advances
    the counter by one. *)
Lemma _addBlock_step fuel now (self : State) (block : Block) :
  fst (_addBlock fuel now self block) = self \/
  exists new_block,
    chain (fst (_addBlock fuel now self block)) = chain self ++ [new_block] /\
    height (fst (_addBlock fuel now self block)) = height self + 1.
Proof.
  rewrite _addBlock_state.
  destruct (link_and_push now self block) as [e | [new_block self']] eqn:Hpush;
    [by left | right].
  destruct (link_and_push_inr _ _ _ _ _ Hpush) as (Hchain & Hheight & _).
  eauto.
Qed.

Lemma state_after_step call (self : State) :
  state_after call self = self \/
  exists new_block,
    chain (state_after call self) = chain self ++ [new_block] /\
    height (state_after call self) = height self + 1.
Proof.
  destruct call; cbn [state_after]; try (by left).
  - rewrite initializeChain_state.
    destruct (height self =? -1); [apply _addBlock_step | by left].
  - apply _addBlock_step.
  - rewrite submitStar_state.
    destruct (_ && _); [apply _addBlock_step | by left].
Qed.

(** X4.  No sequence of calls removes, reorders or replaces a block:
    the chain afterwards is the chain before followed by at most one new
    block per call, and the counter has advanced by the number of new
    blocks. *)
Theorem calls_append_only calls (self : State) :
  exists more,
    chain (states_after calls self) = chain self ++ more /\
    height (states_after calls self) = height self + Z.of_nat (length more) /\
    (length more <= length calls)%nat.
Proof.
  revert self. induction calls as [| call calls IH]; intros self.
  - exists []. cbn. rewrite app_nil_r. repeat split; lia.
  - destruct (IH (state_after call self)) as (more & Hchain & Hheight & Hlen).
    change (states_after (call :: calls) self)
      with (states_after calls (state_after call self)).
    destruct (state_after_step call self) as [Hsame | (b & Hb & Hh)].
    + rewrite Hsame in *. exists more. cbn. repeat split; [done | done | lia].
    + exists (b :: more). rewrite Hchain, Hheight, Hb, Hh, <- app_assoc.
      cbn [length]. repeat split; [lia | cbn; lia].
Qed.

(** X5.  In every state an object goes through, the first block is the
    genesis block, with height 0, the sentinel body and no previous hash;
    every block sits at the index that is its height, carries the hash of
    the block before it, and passes its self-check. *)
Theorem reachable_wellformed (self : State) :
  reachable self ->
  (exists genesis,
     chain self !! 0%nat = Some genesis /\
     Block.height genesis = 0 /\
     Block.body genesis = genesis_body /\
     Block.previousBlockHash genesis = None) /\
  numbered self /\ linked self /\ sealed self.
Proof.
  intros Hreach. split.
  - induction Hreach as [fuel now | call self Hreach (genesis & Hg & Hrest)].
    + unfold constructor.
      destruct (initializeChain_empty fuel now)
        as (genesis & -> & Hh & Hbody & Hprev & _).
      exists genesis. repeat split; assumption.
    + exists genesis. split; [| assumption].
      destruct (state_after_step call self) as [-> | (b & -> & _)];
        [assumption | by apply lookup_app_l_Some].
  - split; [by apply reachable_numbered | by apply reachable_linked_sealed].
Qed.

(** ** What validation reports *)

(** The loop only visits blocks of the chain. *)
Lemma validateChain_from_entries fuel (self : State) latest_block error_array
  error_log entry :
  latest_block ∈ chain self ->
  validateChain_from fuel self latest_block error_array
  = Some (Resolved error_log) ->
  entry ∈ error_log ->
  entry ∈ error_array \/
  exists block,
    entry = LogBlock block /\ block ∈ chain self /\
    Block.validate block = false.
Proof.
  assert (Hcheck : forall (b : Block) log,
             b ∈ chain self ->
             entry ∈ check_block b log ->
             entry ∈ log \/
             exists block, entry = LogBlock block /\ block ∈ chain self /\
                           Block.validate block = false).
  { intros b log Hb. unfold check_block.
    destruct (Block.validate b) eqn:Hvalid; cbn; [auto |].
    rewrite elem_of_app, list_elem_of_singleton.
    intros [? | ->]; eauto. }
  revert latest_block error_array.
  induction fuel as [| fuel IH]; intros latest_block error_array Hin; cbn;
    destruct (0 <? Block.height latest_block); try discriminate;
    try (intros [= <-]; by apply Hcheck).
  destruct (getBlockByHash self _) as [pred |] eqn:Hfound; [| discriminate].
  apply getBlockByHash_Some in Hfound as [Hpred Hhash].
  rewrite bool_decide_eq_false_2 by (rewrite Hhash; auto).
  intros Hrun Hentry.
  destruct (IH _ _ Hpred Hrun Hentry) as [Hold | ?]; [| auto].
  by apply (Hcheck latest_block).
Qed.

(** X6.  The promise of [validateChain] is never rejected, and every
    entry of the list it resolves with is a block of the chain that fails
    its self-check; the text of the link check is in no resolved list. *)
Theorem validateChain_reports_blocks fuel (self : State) :
  (forall e, validateChain fuel self <> Some (Rejected e)) /\
  (forall error_log,
     validateChain fuel self = Some (Resolved error_log) ->
     (LogText link_text ∉ error_log) /\
     forall entry,
       entry ∈ error_log ->
       exists block,
         entry = LogBlock block /\ block ∈ chain self /\
         Block.validate block = false).
Proof.
  split; [intros e; apply validateChain_not_rejected |].
  intros error_log Hrun.
  assert (Hentries : forall entry,
             entry ∈ error_log ->
             exists block, entry = LogBlock block /\ block ∈ chain self /\
                           Block.validate block = false).
  { revert Hrun. unfold validateChain.
    destruct (1 <=? length (chain self))%nat.
    - destruct (chain self !! _) as [latest_block |] eqn:Hlatest;
        [| discriminate].
      intros Hrun entry Hentry.
      apply list_elem_of_lookup_2 in Hlatest.
      destruct (validateChain_from_entries _ _ _ _ _ _ Hlatest Hrun Hentry)
        as [Hnil | ?]; [by apply not_elem_of_nil in Hnil | assumption].
    - intros [= <-] entry Hentry. by apply not_elem_of_nil in Hentry. }
  split; [| assumption].
  intros Hlink. destruct (Hentries _ Hlink) as (block & Heq & _).
  discriminate.
Qed.

(** X7.  On every chain built through the methods, [validateChain]
    resolves with the empty list, within as many iterations as there are
    blocks after the first. *)
Theorem validateChain_reachable fuel (self : State) :
  reachable self ->
  (length (chain self) <= S fuel)%nat ->
  validateChain fuel self = Some (Resolved []).
Proof.
  intros Hreach Hfuel.
  destruct (reachable_numbered _ Hreach) as [_ Hnum].
  destruct (reachable_linked_sealed _ Hreach) as [Hlink Hseal].
  by apply validateChain_sound.
Qed.

(** With distinct hashes, the look-up by the hash of a block of the chain
    finds that block. *)
Lemma getBlockByHash_distinct (self : State) (i : nat) (p : Block) :
  distinct_hashes self ->
  chain self !! i = Some p ->
  getBlockByHash self (Block.hash p) = Some p.
Proof.
  intros Hdistinct Hp.
  destruct (head_filter_before
              (fun q : Block => Block.hash q = Block.hash p)
              (chain self) i p Hp eq_refl)
    as (j & found & _ & Hfound & Hhead).
  unfold getBlockByHash. rewrite Hhead.
  pose proof Hhead as Hhash.
  apply head_Some_elem_of, list_elem_of_filter in Hhash as [Hhash _].
  assert (Hidx : j = i).
  { apply (NoDup_lookup _ j i (Block.hash p) Hdistinct);
      rewrite list_lookup_fmap;
      [rewrite Hfound; cbn; by rewrite Hhash | by rewrite Hp]. }
  subst j. congruence.
Qed.

Lemma check_block_filter (b : Block) (error_array : list (LogEntry Star)) :
  check_block b error_array
  = error_array
    ++ (LogBlock <$> filter (fun b => Block.validate b = false) [b]).
Proof.
  unfold check_block.
  destruct (Block.validate b) eqn:Hvalid; cbn [negb].
  - rewrite filter_cons_False by (rewrite Hvalid; discriminate).
    by rewrite filter_nil, app_nil_r.
  - by rewrite filter_cons_True by assumption.
Qed.

(** On a numbered and linked chain with distinct hashes, the loop started
    at index [i] walks down to index 0 and logs the blocks that fail their
    self-check on the way. *)
Lemma validateChain_from_walk (self : State) :
  numbered self -> linked self -> distinct_hashes self ->
  forall fuel (i : nat) latest_block error_array,
    chain self !! i = Some latest_block ->
    (i <= fuel)%nat ->
    validateChain_from fuel self latest_block error_array
    = Some (Resolved
              (error_array
               ++ (LogBlock <$> filter (fun b => Block.validate b = false)
                                  (reverse (take (S i) (chain self)))))).
Proof.
  intros Hnum Hlink Hdistinct.
  assert (Hbottom : forall b, chain self !! 0%nat = Some b ->
                              take 1 (chain self) = [b]).
  { intros b Hb. destruct (chain self); [discriminate |].
    cbn in Hb. by injection Hb as ->. }
  induction fuel as [| fuel IH]; intros i latest_block error_array Hi Hfuel.
  - assert (i = 0)%nat as -> by lia.
    cbn. rewrite (Hnum _ _ Hi). cbn.
    rewrite (Hbottom _ Hi). by rewrite check_block_filter.
  - cbn. destruct (0 <? Block.height latest_block) eqn:Hh.
    + apply Z.ltb_lt in Hh. rewrite (Hnum _ _ Hi) in Hh.
      destruct i as [| i]; [lia |].
      destruct (Hlink _ _ Hi) as (previous_block & Hprev & Hhash).
      rewrite Hhash, (getBlockByHash_distinct _ _ _ Hdistinct Hprev).
      rewrite bool_decide_eq_false_2 by auto.
      rewrite (IH i) by (assumption || lia).
      rewrite (take_S_r _ _ _ Hi), reverse_snoc, check_block_filter.
      rewrite <- app_assoc, <- fmap_app, <- filter_app. reflexivity.
    + apply Z.ltb_ge in Hh. rewrite (Hnum _ _ Hi) in Hh.
      assert (i = 0)%nat as -> by lia.
      rewrite (Hbottom _ Hi). by rewrite check_block_filter.
Qed.

Lemma validateChain_walk fuel (self : State) :
  numbered self -> linked self -> distinct_hashes self ->
  (length (chain self) <= S fuel)%nat ->
  validateChain fuel self
  = Some (Resolved
            (LogBlock <$> filter (fun b => Block.validate b = false)
                            (reverse (chain self)))).
Proof.
  intros Hnum Hlink Hdistinct Hfuel. unfold validateChain.
  destruct (1 <=? length (chain self))%nat eqn:Hlen.
  - apply Nat.leb_le in Hlen.
    destruct (lookup_lt_is_Some_2 (chain self) (length (chain self) - 1))
      as [latest_block Hlatest]; [lia |].
    rewrite Hlatest.
    rewrite (validateChain_from_walk self Hnum Hlink Hdistinct fuel _ _ _
               Hlatest) by lia.
    rewrite firstn_all2 by lia. reflexivity.
  - apply Nat.leb_gt in Hlen.
    destruct (chain self); [reflexivity | cbn in Hlen; lia].
Qed.

(** X8.  On a chain whose blocks are numbered by their index and linked
    by hashes that are all distinct, as it is after stored blocks had
    their body or time overwritten, [validateChain] resolves with exactly
    the blocks that fail their self-check, from the last block down. *)
Theorem validateChain_reports_tampering fuel (self : State) :
  numbered self -> linked self -> distinct_hashes self ->
  (length (chain self) <= S fuel)%nat ->
  let error_log :=
    LogBlock <$> filter (fun b => Block.validate b = false)
                   (reverse (chain self)) in
  validateChain fuel self = Some (Resolved error_log) /\
  forall block,
    block ∈ chain self ->
    (LogBlock block ∈ error_log <-> Block.validate block = false).
Proof.
  intros Hnum Hlink Hdistinct Hfuel error_log.
  split; [by apply validateChain_walk |].
  intros block Hblock. unfold error_log.
  rewrite list_elem_of_fmap. split.
  - intros (found & [= <-] & Hfound).
    by apply list_elem_of_filter in Hfound as [Hinvalid _].
  - intros Hinvalid. exists block. split; [reflexivity |].
    apply list_elem_of_filter. split; [assumption |].
    by apply elem_of_reverse.
Qed.

(** X9.  When the last block is above height 0 and the look-up by its
    [previousBlockHash] finds that same block, the loop of [validateChain]
    never ends: no number of iterations gives a result. *)
Theorem validateChain_cycle fuel (self : State) tip :
  last (chain self) = Some tip ->
  0 < Block.height tip ->
  getBlockByHash self (Block.previousBlockHash tip) = Some tip ->
  validateChain fuel self = None.
Proof.
  intros Htip Hh Hfound.
  assert (Hloop : forall fuel error_array,
             validateChain_from fuel self tip error_array = None).
  { apply Z.ltb_lt in Hh.
    intros n. induction n as [| n IH]; intros error_array; cbn; rewrite Hh;
      [reflexivity |].
    rewrite Hfound. apply IH. }
  unfold validateChain.
  rewrite last_lookup in Htip.
  destruct (chain self) as [| b l] eqn:Hchain; [discriminate |].
  cbn [length Nat.leb]. 
  replace (S (length l) - 1)%nat with (Nat.pred (length (b :: l)))
    by (cbn; lia).
  rewrite Htip. apply Hloop.
Qed.

(** ** The challenge and its redemption *)













(** ** The outcomes of [_addBlock] and [submitStar] *)

(** X12.  [_addBlock] is rejected with a [TypeError] exactly when the
    counter is not negative and points past the end of the array; the
    state is then left as it was.  This never happens in a state an
    object goes through. *)
Theorem _addBlock_TypeError fuel now (self : State) (block : Block) :
  (snd (_addBlock fuel now self block) = Some (Rejected TypeError) <->
   0 <= height self /\ Z.of_nat (length (chain self)) <= height self) /\
  (snd (_addBlock fuel now self block) = Some (Rejected TypeError) ->
   fst (_addBlock fuel now self block) = self) /\
  (reachable self ->
   snd (_addBlock fuel now self block) <> Some (Rejected TypeError)).
Proof.
  assert (Hiff :
    snd (_addBlock fuel now self block) = Some (Rejected TypeError) <->
    0 <= height self /\ Z.of_nat (length (chain self)) <= height self).
  { unfold _addBlock. split.
    - destruct (link_and_push now self block) as [e | [new_block self']]
        eqn:Hpush.
      + intros _. apply link_and_push_inl in Hpush as (_ & Hpos & Hnone).
        apply lookup_ge_None in Hnone. lia.
      + destruct (validateChain fuel self') as [[log | e |] |] eqn:Hvalid;
          try discriminate.
        * destruct (length log =? 0)%nat; discriminate.
        * destruct (validateChain_not_rejected _ _ _ Hvalid).
    - intros [Hpos Hpast]. unfold link_and_push.
      rewrite (proj2 (Z.leb_le _ _)) by assumption.
      rewrite (proj2 (lookup_ge_None _ _)) by lia. reflexivity. }
  split; [exact Hiff | split].
  - intros Hrejected. apply Hiff in Hrejected as [Hpos Hpast].
    rewrite _addBlock_state. unfold link_and_push.
    rewrite (proj2 (Z.leb_le _ _)) by assumption.
    rewrite (proj2 (lookup_ge_None _ _)) by lia. reflexivity.
  - intros Hreach Hrejected. apply Hiff in Hrejected as [Hpos Hpast].
    destruct (reachable_numbered _ Hreach) as [[Hlen _] _]. lia.
Qed.

(** X13.  [submitStar] is only ever rejected as expired or as not
    verified, and then nothing was appended.  When [_addBlock] rejects the
    block it was handed, whatever the reason, the promise of [submitStar]
    never settles, while the state is the one [_addBlock] left. *)
Theorem submitStar_outcomes fuel currentTime now (self : State)
  address message signature star :
  (forall reason,
     snd (submitStar fuel currentTime now self address message signature star)
     = Some (Rejected reason) ->
     (reason = EXPIRED \/ reason = BAD_SIGNATURE) /\
     fst (submitStar fuel currentTime now self address message signature star)
     = self) /\
  (forall reason,
     le (time_diff_min currentTime (message_time message)) 5 = true ->
     verify message address signature = true ->
     let new_block :=
       Block.new (Block.Claim
         {| Block.owner := address; Block.signature := signature;
            Block.message := message; Block.star := star |}) in
     snd (_addBlock fuel now self new_block) = Some (Rejected reason) ->
     submitStar fuel currentTime now self address message signature star
     = (fst (_addBlock fuel now self new_block), Some NeverSettles)).
Proof.
  split.
  - intros reason. unfold submitStar.
    destruct (le _ 5); [| intros [= <-]; auto].
    destruct (verify _ _ _); [| intros [= <-]; auto].
    destruct (_addBlock _ _ _ _) as [self' [[b | e |] |]]; discriminate.
  - intros reason Hfresh Hverify new_block. unfold submitStar.
    rewrite Hfresh, Hverify. fold new_block.
    destruct (_addBlock _ _ _ new_block) as [self' [[b | e |] |]];
      try discriminate.
    reflexivity.
Qed.

(** The decoded bodies after one more block. *)
Lemma decoded_bodies_snoc (blocks : list Block) (block : Block) :
  decoded_bodies (blocks ++ [block])
  = decoded_bodies blocks
    ++ match Block.getBData block with
       | inr block_data => [block_data]
       | inl _ => []
       end.
Proof.
  unfold decoded_bodies. rewrite omap_app. f_equal.
  cbn. by destruct (Block.getBData block).
Qed.

Lemma getStarsByWalletAddress_filter (self : State) address :
  getStarsByWalletAddress self address
  = Resolved (filter (fun d => Block.owner d = address)
                (decoded_bodies (chain self))).
Proof.
  unfold getStarsByWalletAddress, scan_chain.
  by rewrite scan_block_foldl.
Qed.

(** X14.  In a state an object goes through, a submission with a fresh
    message and an accepted signature is resolved as soon as the bound is
    the length of the chain: one block is appended, with the next height,
    the clock as time and the claim as body; it is the block
    [getBlockByHeight] then finds at that height; the stars of the address
    are the former ones followed by the claim, and the stars of any other
    address are unchanged. *)
Theorem submitStar_registers fuel currentTime now (self : State)
  address message signature star :
  reachable self ->
  le (time_diff_min currentTime (message_time message)) 5 = true ->
  verify message address signature = true ->
  (length (chain self) <= fuel)%nat ->
  let data :=
    {| Block.owner := address; Block.signature := signature;
       Block.message := message; Block.star := star |} in
  exists new_block self',
    submitStar fuel currentTime now self address message signature star
    = (self', Some (Resolved new_block)) /\
    chain self' = chain self ++ [new_block] /\
    height self' = height self + 1 /\
    Block.height new_block = height self + 1 /\
    Block.time new_block = now /\
    Block.body new_block = Block.Claim data /\
    getBlockByHeight self' (height self + 1) = Some new_block /\
    (forall stars,
       getStarsByWalletAddress self address = Resolved stars ->
       getStarsByWalletAddress self' address = Resolved (stars ++ [data])) /\
    (forall other,
       other <> address ->
       getStarsByWalletAddress self' other
       = getStarsByWalletAddress self other).
Proof.
  intros Hreach Hfresh Hverify Hfuel data.
  destruct (reachable_addBlock_resolved fuel now self (Block.Claim data)
              Hreach Hfuel) as [new_block Hresolved].
  destruct (_addBlock_resolved _ _ _ _ _ Hresolved) as (self' & Hpush & _).
  destruct (link_and_push_inr _ _ _ _ _ Hpush)
    as (Hchain & Hheight & Hnew & Htime & Hbody & _).
  assert (Hstate : fst (_addBlock fuel now self (Block.new (Block.Claim data)))
                   = self') by (by rewrite _addBlock_state, Hpush).
  assert (Hdecode : Block.getBData new_block = inr data)
    by (unfold Block.getBData; by rewrite Hbody).
  exists new_block, self'. repeat split; try assumption.
  - unfold submitStar. rewrite Hfresh, Hverify. fold data.
    destruct (_addBlock fuel now self (Block.new (Block.Claim data)))
      as [s o]. cbn in Hstate, Hresolved. by subst.
  - pose proof (reachable_call
                  (CallAddBlock fuel now (Block.Claim data)) _ Hreach)
      as Hnext.
    cbn [state_after] in Hnext. rewrite Hstate in Hnext.
    destruct (reachable_numbered _ Hnext) as [[Hlen _] Hnum].
    rewrite getBlockByHeight_index by assumption.
    rewrite Hchain, length_app in Hlen. cbn in Hlen.
    rewrite (proj2 (Z.leb_le _ _)) by lia.
    rewrite Hchain, lookup_app_r by lia.
    replace (Z.to_nat (height self + 1) - length (chain self))%nat
      with 0%nat by lia.
    reflexivity.
  - intros stars. rewrite !getStarsByWalletAddress_filter.
    intros [= <-]. rewrite Hchain, decoded_bodies_snoc, Hdecode, filter_app.
    by rewrite filter_cons_True, filter_nil by reflexivity.
  - intros other Hother. rewrite !getStarsByWalletAddress_filter.
    rewrite Hchain, decoded_bodies_snoc, Hdecode, filter_app.
    rewrite filter_cons_False by (cbn; congruence).
    by rewrite filter_nil, app_nil_r.
Qed.

(** X15.  The constructor leaves one block, the genesis block: height 0,
    the clock as time, no previous hash, a body that does not decode.  In
    any state an object goes through, a further [initializeChain] resolves
    and changes nothing. *)
Theorem initializeChain_once :
  (forall fuel now,
     exists genesis : Block,
       constructor fuel now = {| chain := [genesis]; height := 0 |} /\
       Block.height genesis = 0 /\
       Block.time genesis = now /\
       Block.previousBlockHash genesis = None /\
       Block.hash genesis = Some (Block.digest genesis) /\
       Block.getBData genesis = inl Block.NotDecodable) /\
  (forall fuel now (self : State),
     reachable self ->
     initializeChain fuel now self = (self, Some (Resolved ()))).
Proof.
  split.
  - intros fuel now. unfold constructor.
    rewrite initializeChain_state.
    change (height empty =? -1) with true. cbv iota.
    rewrite _addBlock_state.
    destruct (link_and_push now empty (Block.new genesis_body))
      as [e | [genesis self']] eqn:Hpush; [discriminate |].
    destruct (link_and_push_inr _ _ _ _ _ Hpush)
      as (Hchain & Hheight & Hnew & Htime & Hbody & Hhash & Hprev).
    exists genesis. repeat split; try assumption.
    + destruct self' as [c h]. cbn in *. by subst.
    + unfold Block.getBData. by rewrite Hbody.
  - intros fuel now self Hreach.
    destruct (reachable_numbered _ Hreach) as [Hcons _].
    destruct (consistent_not_empty _ Hcons) as [_ Hpos].
    unfold initializeChain.
    by rewrite (proj2 (Z.eqb_neq _ _)) by lia.
Qed.

(** ** Appending and looking up *)

(** X16.  After [_addBlock] appended a block, [getBlockByHash] on the
    hash of that block finds it, unless an older block has the same hash:
    then it still finds the older one. *)
Theorem getBlockByHash_appended fuel now (self : State) (block : Block)
  new_block :
  chain (fst (_addBlock fuel now self block)) = chain self ++ [new_block] ->
  getBlockByHash (fst (_addBlock fuel now self block)) (Block.hash new_block)
  = Some (default new_block (getBlockByHash self (Block.hash new_block))).
Proof.
  intros Hchain. unfold getBlockByHash. rewrite Hchain, filter_app.
  rewrite (filter_cons_True _ new_block) by reflexivity.
  rewrite filter_nil.
  destruct (filter _ (chain self)); reflexivity.
Qed.

(** Pushing keeps the chain linked. *)
Lemma link_and_push_linked now (self : State) (block : Block) new_block self' :
  consistent self -> linked self ->
  link_and_push now self block = inr (new_block, self') ->
  linked self'.
Proof.
  intros [Hlen _] Hlink Hpush.
  destruct (link_and_push_inr _ _ _ _ _ Hpush)
    as (Hchain & _ & _ & _ & _ & _ & Hprev).
  intros i b. rewrite Hchain, lookup_app_Some.
  intros [Hold | [Hge Hlast]].
  - destruct (Hlink _ _ Hold) as (p & Hp & Hp').
    exists p. split; [| assumption]. by apply lookup_app_l_Some.
  - apply list_lookup_singleton_Some in Hlast as [Hi <-].
    assert (Hidx : Z.to_nat (height self) = i) by lia.
    assert (Hpos : (0 <=? height self) = true) by (apply Z.leb_le; lia).
    rewrite Hpos, Hidx in Hprev.
    destruct (lookup_lt_is_Some_2 (chain self) i) as [p Hp]; [lia |].
    exists p. split; [by apply lookup_app_l_Some |].
    by rewrite Hprev, Hp.
Qed.

(** X17.  Once a stored block fails its self-check, in a chain that is
    otherwise numbered and linked and whose hashes stay distinct, every
    [_addBlock] of a new block is rejected with the list of the failing
    blocks, from the last one down; the new block is appended all the
    same. *)
Theorem _addBlock_after_tampering fuel now (self : State) (block : Block) :
  consistent self -> numbered self -> linked self ->
  distinct_hashes (fst (_addBlock fuel now self block)) ->
  Block.hash block = None ->
  (exists bad, bad ∈ chain self /\ Block.validate bad = false) ->
  (length (chain self) <= fuel)%nat ->
  exists new_block,
    _addBlock fuel now self block
    = ({| chain := chain self ++ [new_block]; height := height self + 1 |},
       Some (Rejected
               (VALIDATION_FAILURE
                  (LogBlock <$> filter (fun b => Block.validate b = false)
                                  (reverse (chain self)))))).
Proof.
  intros Hcons Hnum Hlink Hdistinct Hunset (bad & Hbad & Hinvalid) Hfuel.
  pose proof (_addBlock_numbered fuel now self block Hcons Hnum) as Hnum'.
  rewrite _addBlock_state in Hnum', Hdistinct.
  destruct (link_and_push_total now self block)
    as (new_block & self' & Hpush); [destruct Hcons; lia |].
  rewrite Hpush in Hnum', Hdistinct.
  pose proof (link_and_push_linked _ _ _ _ _ Hcons Hlink Hpush) as Hlink'.
  destruct (link_and_push_inr _ _ _ _ _ Hpush)
    as (Hchain & Hheight & _ & _ & _ & Hhash & _).
  rewrite Hunset in Hhash.
  assert (Hvalid : Block.validate new_block = true)
    by (by apply bool_decide_eq_true).
  pose proof (validateChain_walk fuel self' Hnum' Hlink' Hdistinct) as Hrun.
  rewrite Hchain, length_app, reverse_snoc in Hrun.
  rewrite filter_cons_False in Hrun by (rewrite Hvalid; discriminate).
  specialize (Hrun ltac:(cbn; lia)).
  exists new_block. unfold _addBlock. rewrite Hpush, Hrun.
  assert (Hin : bad ∈ filter (fun b : Block => Block.validate b = false)
                        (reverse (chain self))).
  { apply list_elem_of_filter. split; [assumption |].
    by apply elem_of_reverse. }
  destruct (filter _ (reverse (chain self))) as [| b l] eqn:Hfilter;
    [by apply not_elem_of_nil in Hin |].
  cbn [fmap list_fmap length Nat.eqb].
  destruct self' as [c h]. cbn in Hchain, Hheight. by subst.
Qed.

End Operations.

(** * The properties on the small instance *)

Import Js Blockchain Demo.

Lemma _addBlock_links_witness :
  exists tip new_block : Block.Block string,
    snd (_addBlock 3 1200 one_star (Block.new genesis_body))
    = Some (Resolved new_block) /\
    last (chain one_star) = Some tip /\
    Block.height new_block = 2 /\
    Block.previousBlockHash new_block = Block.hash tip /\
    last (chain (fst (_addBlock 3 1200 one_star (Block.new genesis_body))))
    = Some new_block /\
    height (fst (_addBlock 3 1200 one_star (Block.new genesis_body))) = 2.
Proof.
  destruct (_addBlock_links 3 1200 one_star (Block.new genesis_body))
    as (tip & new_block & Htip & Hheight & Hprev & _ & Hlast & Hcounter & Hres).
  - by vm_compute.
  - vm_compute. reflexivity.
  - exists tip, new_block.
    assert (Hsettled : exists b,
               snd (_addBlock 3 1200 one_star (Block.new genesis_body))
               = Some (Resolved b))
      by (eexists; vm_compute; reflexivity).
    destruct Hsettled as [b Hb].
    rewrite <- (Hres b Hb) at 1.
    repeat split; assumption.
Defined.

Lemma _addBlock_hash_witness :
  exists new_block : Block.Block string,
    (Block.hash new_block = Some (Block.digest new_block) /\
     Block.validate new_block = true /\
     forall b,
       snd (_addBlock 3 1200 one_star (Block.new genesis_body))
       = Some (Resolved b) -> b = new_block) /\
    Block.height new_block = 2.
Proof.
  eexists. split.
  - apply (_addBlock_hash 3 1200 one_star (Block.new genesis_body)).
    + reflexivity.
    + vm_compute. reflexivity.
  - reflexivity.
Defined.

(** C4, as stated, fails on a message without time: it is rejected as
    expired although the elapsed minutes, being [NaN], do not exceed
    five. *)
Lemma expired_without_elapsed_minutes :
  ~ (snd (submitStar 3 1100 1100 fresh "1A2b3C" "hello" "1A2b3Chello" "Vega")
     = Some (Rejected EXPIRED) <->
     gt (time_diff_min 1100 (message_time "hello")) 5).
Proof.
  intros [Hexpired _]. apply Hexpired. vm_compute. reflexivity.
Qed.

Lemma submitStar_expired_exactly_witness :
  verify "1A2b3C:1000:starRegistry" "1A2b3C" "1A2b3C1A2b3C:1000:starRegistry"
  = true /\
  submitStar 3 1301 1301 one_star "1A2b3C" "1A2b3C:1000:starRegistry"
    "1A2b3C1A2b3C:1000:starRegistry" "Vega"
  = (one_star, Some (Rejected EXPIRED)).
Proof.
  split.
  - vm_compute. reflexivity.
  - apply (submitStar_expired_exactly 3 1301 1301 one_star).
    vm_compute. reflexivity.
Defined.

Lemma submitStar_malformed_witness :
  message_time "hello" = None /\
  submitStar 3 1100 1100 one_star "1A2b3C" "hello" "1A2b3Chello" "Vega"
  = (one_star, Some (Rejected EXPIRED)).
Proof.
  apply (submitStar_malformed 3 1100 1100 one_star).
  vm_compute. reflexivity.
Defined.

Lemma submitStar_future_dated_witness :
  ~ gt (time_diff_min 1500 (message_time "1A2b3C:2000:starRegistry")) 0 /\
  le (time_diff_min 1500 (message_time "1A2b3C:2000:starRegistry")) 5 = true /\
  snd (submitStar 3 1500 1500 one_star "1A2b3C" "1A2b3C:2000:starRegistry"
         "1A2b3C1A2b3C:2000:starRegistry" "Vega")
  <> Some (Rejected EXPIRED).
Proof.
  apply (submitStar_future_dated 3 1500 1500 one_star _ _ _ _ 2000).
  - vm_compute. reflexivity.
  - lia.
Defined.

Lemma submitStar_fresh_witness :
  submitStar 3 1100 1100 fresh "1A2b3C" "1A2b3C:1000:starRegistry"
    "forged" "Vega"
  = (fresh, Some (Rejected BAD_SIGNATURE)) /\
  exists new_block : Block.Block string,
    chain one_star = chain fresh ++ [new_block] /\
    exists data,
      Block.getBData new_block = inr data /\
      Block.owner data = "1A2b3C"%string.
Proof.
  pose proof (submitStar_fresh 3 1100 1100 fresh "1A2b3C"
                "1A2b3C:1000:starRegistry" "forged" "Vega" eq_refl)
    as [Hforged _].
  pose proof (submitStar_fresh 2 1100 1100 fresh "1A2b3C"
                "1A2b3C:1000:starRegistry" "1A2b3C1A2b3C:1000:starRegistry"
                "Vega" eq_refl)
    as [_ Hsigned].
  split.
  - apply Hforged. vm_compute. reflexivity.
  - destruct (Hsigned eq_refl) as (_ & _ & Hdecoded).
    eexists. split.
    + vm_compute. reflexivity.
    + eexists. apply Hdecoded. vm_compute. reflexivity.
Defined.

Lemma consistent_invariant_witness :
  chain one_star <> [] /\ consistent one_star.
Proof.
  apply (proj2 consistent_invariant
           (CallSubmitStar 2 1100 1100 "1A2b3C" "1A2b3C:1000:starRegistry"
              "1A2b3C1A2b3C:1000:starRegistry" "Vega") fresh).
  split; vm_compute; reflexivity.
Defined.

Lemma getStarsByWalletAddress_exact_witness :
  getStarsByWalletAddress one_star "1A2b3C"
  = Resolved
      [ {| Block.owner := "1A2b3C";
           Block.signature := "1A2b3C1A2b3C:1000:starRegistry";
           Block.message := "1A2b3C:1000:starRegistry";
           Block.star := "Vega" |} ] /\
  decode_failures (chain one_star) = [Block.NotDecodable] /\
  numbered one_star.
Proof.
  destruct (getStarsByWalletAddress_exact one_star "1A2b3C")
    as (Hscan & Hresolved & Hnumbered).
  split; [| split].
  - rewrite Hresolved. vm_compute. reflexivity.
  - vm_compute. reflexivity.
  - apply Hnumbered.
    exact (reachable_call
             (CallSubmitStar 2 1100 1100 "1A2b3C" "1A2b3C:1000:starRegistry"
                "1A2b3C1A2b3C:1000:starRegistry" "Vega") _
             (reachable_constructor 1 1000)).
Defined.

Lemma _addBlock_no_rollback_witness :
  exists (error_log : list (LogEntry string)) (new_block : Block.Block string),
    snd (_addBlock 3 1200 restamped (Block.new genesis_body))
    = Some (Rejected (VALIDATION_FAILURE error_log)) /\
    chain (fst (_addBlock 3 1200 restamped (Block.new genesis_body)))
    = chain restamped ++ [new_block] /\
    height (fst (_addBlock 3 1200 restamped (Block.new genesis_body))) = 2.
Proof.
  eexists.
  assert (Hrejected :
    snd (_addBlock 3 1200 restamped (Block.new genesis_body))
    = Some (Rejected (VALIDATION_FAILURE _))) by (vm_compute; reflexivity).
  destruct (_addBlock_no_rollback _ _ _ _ _ Hrejected)
    as (new_block & Hchain & Hheight & _).
  exists new_block. split; [exact Hrejected | split; assumption].
Defined.

(** C2, on a chain whose second block points to a hash no block has:
    the look-up of the predecessor finds nothing, the promise of
    [validateChain] never settles, and whatever the number of iterations
    allowed no log is resolved, so no link error is reported. *)
Theorem validateChain_dangling_never_settles :
  getBlockByHash dangling (Some "0000"%string) = None /\
  (forall fuel, validateChain (S fuel) dangling = Some NeverSettles) /\
  forall fuel error_log,
    validateChain fuel dangling <> Some (Resolved error_log).
Proof.
  split; [reflexivity | split].
  - intros fuel. reflexivity.
  - intros [| fuel] error_log; discriminate.
Qed.

(** * The further properties on the small instance *)

Lemma one_star_reachable : reachable one_star.
Proof.
  exact (reachable_call
           (CallSubmitStar 2 1100 1100 "1A2b3C" "1A2b3C:1000:starRegistry"
              "1A2b3C1A2b3C:1000:starRegistry" "Vega") _
           (reachable_constructor 1 1000)).
Qed.

Lemma restamped_numbered : numbered restamped.
Proof.
  intros [| [| i]] b Hb; vm_compute in Hb; try discriminate;
    injection Hb as <-; reflexivity.
Qed.

Lemma restamped_linked : linked restamped.
Proof.
  intros [| i] b Hb; [| destruct i; discriminate].
  vm_compute in Hb. injection Hb as <-.
  eexists. split; reflexivity.
Qed.

Lemma restamped_distinct_hashes : distinct_hashes restamped.
Proof.
  unfold distinct_hashes.
  apply (bool_decide_unpack (NoDup (Block.hash <$> chain restamped))).
  by vm_compute.
Qed.

Lemma getBlockByHeight_numbered_witness :
  (exists block,
     getBlockByHeight one_star 1 = Some block /\
     chain one_star !! 1%nat = Some block /\
     Block.height block = 1) /\
  getBlockByHeight one_star (-1) = None /\
  getBlockByHeight one_star 2 = None.
Proof.
  assert (Hnum : numbered one_star)
    by apply (reachable_numbered _ one_star_reachable).
  split; [| split].
  - apply (getBlockByHeight_numbered one_star 1 Hnum). by vm_compute.
  - apply (getBlockByHeight_numbered one_star (-1) Hnum). left. lia.
  - apply (getBlockByHeight_numbered one_star 2 Hnum). right. by vm_compute.
Defined.

Lemma getChainHeight_tip_witness :
  exists tip,
    getChainHeight one_star (Star := string) = Resolved 1 /\
    0 <= height one_star /\
    last (chain one_star) = Some tip /\
    getBlockByHeight one_star (height one_star) = Some tip /\
    getBlockByHeight one_star (height one_star + 1) = None.
Proof.
  exact (getChainHeight_tip one_star one_star_reachable).
Defined.

Lemma reachable_wellformed_witness :
  (exists genesis,
     chain one_star !! 0%nat = Some genesis /\
     Block.height genesis = 0 /\
     Block.body genesis = genesis_body /\
     Block.previousBlockHash genesis = None) /\
  numbered one_star /\ linked one_star /\ sealed one_star.
Proof.
  exact (reachable_wellformed one_star one_star_reachable).
Defined.

Lemma validateChain_reports_blocks_witness :
  exists error_log,
    validateChain 1 restamped = Some (Resolved error_log) /\
    error_log <> [] /\
    (LogText link_text ∉ error_log) /\
    forall entry,
      entry ∈ error_log ->
      exists block,
        entry = LogBlock block /\ block ∈ chain restamped /\
        Block.validate block = false.
Proof.
  eexists. split; [vm_compute; reflexivity |].
  split; [discriminate |].
  apply (proj2 (validateChain_reports_blocks 1 restamped)).
  vm_compute. reflexivity.
Defined.

Lemma validateChain_reachable_witness :
  validateChain 1 one_star = Some (Resolved []).
Proof.
  apply (validateChain_reachable 1 one_star one_star_reachable).
  vm_compute. lia.
Defined.

Lemma validateChain_reports_tampering_witness :
  exists block,
    chain restamped !! 1%nat = Some block /\
    validateChain 1 restamped = Some (Resolved [LogBlock block]).
Proof.
  eexists. split; [vm_compute; reflexivity |].
  destruct (validateChain_reports_tampering 1 restamped restamped_numbered
              restamped_linked restamped_distinct_hashes)
    as [Hrun _]; [vm_compute; lia |].
  rewrite Hrun. vm_compute. reflexivity.
Defined.

Lemma validateChain_cycle_witness :
  validateChain 1000 looped = None.
Proof.
  eapply (validateChain_cycle 1000 looped).
  - vm_compute. reflexivity.
  - by vm_compute.
  - vm_compute. reflexivity.
Defined.



Lemma _addBlock_TypeError_witness :
  _addBlock 3 1200 emptied (Block.new genesis_body)
  = (emptied, Some (Rejected TypeError)) /\
  snd (_addBlock 3 1200 one_star (Block.new genesis_body))
  <> Some (Rejected TypeError).
Proof.
  split.
  - assert (Hrejected :
      snd (_addBlock 3 1200 emptied (Block.new genesis_body))
      = Some (Rejected TypeError)).
    { apply (proj1 (_addBlock_TypeError 3 1200 emptied
                      (Block.new genesis_body))).
      vm_compute. split; discriminate. }
    pose proof (proj1 (proj2 (_addBlock_TypeError 3 1200 emptied
                                (Block.new genesis_body))) Hrejected)
      as Hstate.
    destruct (_addBlock 3 1200 emptied (Block.new genesis_body)).
    cbn in *. by subst.
  - apply (proj2 (proj2 (_addBlock_TypeError 3 1200 one_star
                           (Block.new genesis_body)))).
    exact one_star_reachable.
Defined.

Lemma submitStar_outcomes_witness :
  exists new_block,
    submitStar 3 1100 1200 restamped "1A2b3C" "1A2b3C:1000:starRegistry"
      "1A2b3C1A2b3C:1000:starRegistry" "Sirius"
    = ({| chain := chain restamped ++ [new_block]; height := 2 |},
       Some NeverSettles).
Proof.
  eexists.
  erewrite (proj2 (submitStar_outcomes 3 1100 1200 restamped "1A2b3C"
                     "1A2b3C:1000:starRegistry"
                     "1A2b3C1A2b3C:1000:starRegistry" "Sirius")).
  - vm_compute. reflexivity.
  - vm_compute. reflexivity.
  - vm_compute. reflexivity.
  - vm_compute. reflexivity.
Defined.

Lemma submitStar_registers_witness :
  exists new_block self',
    submitStar 2 1250 1260 one_star "3F4g5H" "3F4g5H:1200:starRegistry"
      "3F4g5H3F4g5H:1200:starRegistry" "Sirius"
    = (self', Some (Resolved new_block)) /\
    Block.height new_block = 2 /\
    getBlockByHeight self' 2 = Some new_block /\
    getStarsByWalletAddress self' "3F4g5H"
    = Resolved [ {| Block.owner := "3F4g5H";
                    Block.signature := "3F4g5H3F4g5H:1200:starRegistry";
                    Block.message := "3F4g5H:1200:starRegistry";
                    Block.star := "Sirius" |} ] /\
    getStarsByWalletAddress self' "1A2b3C"
    = getStarsByWalletAddress one_star "1A2b3C".
Proof.
  destruct (submitStar_registers 2 1250 1260 one_star "3F4g5H"
              "3F4g5H:1200:starRegistry" "3F4g5H3F4g5H:1200:starRegistry"
              "Sirius" one_star_reachable)
    as (new_block & self' & Hsubmit & _ & _ & Hheight & _ & _ & Hfound
        & Hstars & Hothers).
  - vm_compute. reflexivity.
  - vm_compute. reflexivity.
  - vm_compute. lia.
  - exists new_block, self'.
    split; [exact Hsubmit | split; [exact Hheight | split; [exact Hfound |]]].
    split.
    + apply (Hstars []). vm_compute. reflexivity.
    + apply Hothers. discriminate.
Defined.

Lemma initializeChain_once_witness :
  initializeChain 3 5000 one_star = (one_star, Some (Resolved ())).
Proof.
  apply (proj2 initializeChain_once 3%nat 5000 one_star).
  exact one_star_reachable.
Defined.

Lemma _addBlock_after_tampering_witness :
  exists new_block bad,
    chain restamped !! 1%nat = Some bad /\
    _addBlock 3 1200 restamped (Block.new genesis_body)
    = ({| chain := chain restamped ++ [new_block]; height := 2 |},
       Some (Rejected (VALIDATION_FAILURE [LogBlock bad]))).
Proof.
  destruct (_addBlock_after_tampering 3 1200 restamped
              (Block.new genesis_body))
    as [new_block Hrejected].
  - split; vm_compute; reflexivity.
  - exact restamped_numbered.
  - exact restamped_linked.
  - unfold distinct_hashes.
    apply (bool_decide_unpack
             (NoDup (Block.hash
                     <$> chain (fst (_addBlock 3 1200 restamped
                                       (Block.new genesis_body)))))).
    by vm_compute.
  - reflexivity.
  - eexists. split.
    + apply (list_elem_of_lookup_2 _ 1%nat). vm_compute. reflexivity.
    + vm_compute. reflexivity.
  - vm_compute. lia.
  - exists new_block. eexists. split; [vm_compute; reflexivity |].
    rewrite Hrejected. vm_compute. reflexivity.
Defined.

Lemma getBlockByHash_appended_witness :
  exists new_block,
    chain one_star = chain fresh ++ [new_block] /\
    getBlockByHash one_star (Block.hash new_block) = Some new_block.
Proof.
  pose (claim := Block.new (Block.Claim
                   {| Block.owner := "1A2b3C"%string;
                      Block.signature := "1A2b3C1A2b3C:1000:starRegistry"%string;
                      Block.message := "1A2b3C:1000:starRegistry"%string;
                      Block.star := "Vega"%string |})).
  eexists. split; [vm_compute; reflexivity |].
  lazymatch goal with
  | |- getBlockByHash _ (Block.hash ?new_block) = _ =>
      assert (Hpushed : chain (fst (_addBlock 2 1100 fresh claim))
                        = chain fresh ++ [new_block])
        by (vm_compute; reflexivity);
      pose proof (getBlockByHash_appended 2 1100 fresh claim new_block
                    Hpushed) as Hfound
  end.
  vm_compute in Hfound |- *. exact Hfound.
Defined.
